(** * Editors component (src/renderer/components/editors.tsx)

    A shallow embedding of the [Editors] React component: the command
    dispatcher [executeCommand], the option synchroniser
    [toggleEditorOption], the engine loader [loadMonaco] and the layout
    reaction [disposeLayoutAutorun].

    JavaScript objects live in an explicit store, so that two references to
    the same object are two equal locations; exceptions, console output and
    calls into the Monaco editors are threaded through a small state and
    exception monad. *)

From Stdlib Require Import ZArith Lia Ascii String.
From stdpp Require Import gmap strings list.

Local Open Scope string_scope.
Local Open Scope list_scope.

(** ** Values, objects and the store *)

Definition loc := nat.

Inductive value :=
| VUndefined
| VBool (b : bool)
| VNum (n : Z)
| VStr (s : string)
| VRef (l : loc).

(** A plain JavaScript object used as a record of options. *)
Abbreviation object := (gmap string value).

(** The store: location [l] is the [l]-th allocated object. *)
Abbreviation heap := (list (gmap string value)).

Inductive exn :=
| TypeError (msg : string)
| Failure (msg : string).

Inductive result (A : Type) :=
| Ok (a : A)
| Throw (e : exn).
Arguments Ok {A} a.
Arguments Throw {A} e.

(** ** Monaco's capability surface *)

(** [IEditorAction]: [id], [isSupported()], [run()].  [isSupported_text] is
    the source text of the method [isSupported], what a template literal
    prints for it; [isSupported] is what a call of it returns.  The calls
    [isSupported()] and [run()] are taken to return normally. *)
Record command := {
  cmd_id : string;
  isSupported_text : string;
  isSupported : bool
}.

(** [IStandaloneCodeEditor], as far as this component uses it.
    [getAction] yields [None] for JavaScript's [null] and is taken to return
    normally; [updateOptions_throws] is the exception the widget raises when
    options are pushed to it, if any. *)
Record editor := {
  ed_id : string;
  hasTextFocus : bool;
  getAction : string -> option command;
  updateOptions_throws : option exn
}.

(** [window.ElectronFiddle.editors]: keys in property order, each bound to an
    editor or to [null]. *)
Abbreviation registry := (list (string * option editor)).

(** ** Observable effects

    [UpdateOptions ed opts seen]: the editor [ed] is handed the reference
    [opts] while the store is [seen]; what the editor reads through the
    reference is what [seen] holds. *)

Inductive event :=
| ConsoleLog (msg : string)
| ConsoleWarn (msg : string) (err : exn)
| CommandRun (ed : string) (cmd : string)
| UpdateOptions (ed : string) (opts : loc) (seen : list (gmap string value))
| SetState (opts : loc).

(** [EditorsState]; [monaco] is the loaded engine, [monacoOptions] a
    reference to the options object. *)
Record EditorsState := {
  monaco : option nat;
  isMounted : bool;
  monacoOptions : loc
}.

Record world := {
  editors : option registry;
  state : EditorsState;
  store : heap;
  console : list event
}.

Definition with_state (s : EditorsState) (w : world) : world :=
  {| editors := editors w; state := s; store := store w; console := console w |}.

Definition with_store (h : heap) (w : world) : world :=
  {| editors := editors w; state := state w; store := h; console := console w |}.

Definition with_editors (r : option registry) (w : world) : world :=
  {| editors := r; state := state w; store := store w; console := console w |}.

Definition emit (e : event) (w : world) : world :=
  {| editors := editors w; state := state w; store := store w;
     console := console w ++ [e] |}.

(** ** The monad of the component's methods *)

Definition M (A : Type) : Type := world -> result A * world.

Definition ret {A} (a : A) : M A := fun w => (Ok a, w).

Definition bind {A B} (m : M A) (k : A -> M B) : M B :=
  fun w =>
    match m w with
    | (Ok a, w') => k a w'
    | (Throw e, w') => (Throw e, w')
    end.

Definition throw {A} (e : exn) : M A := fun w => (Throw e, w).

(** [try { m } catch (error) { handler error }]: what [m] did to the world
    before it threw stays done. *)
Definition try_catch {A} (m : M A) (handler : exn -> M A) : M A :=
  fun w =>
    match m w with
    | (Ok a, w') => (Ok a, w')
    | (Throw e, w') => handler e w'
    end.

Notation "'let!' x ':=' c 'in' k" := (bind c (fun x => k))
  (at level 10, x name, c at level 100, k at level 200, only parsing).
Notation "c ';;;' k" := (bind c (fun _ => k))
  (at level 100, k at level 200, right associativity, only parsing).

Definition lift_result {A} (r : result A) : M A := fun w => (r, w).

Definition tell (e : event) : M unit := fun w => (Ok tt, emit e w).

Fixpoint forEach {A} (l : list A) (f : A -> M unit) : M unit :=
  match l with
  | [] => ret tt
  | x :: xs => f x ;;; forEach xs f
  end.

(** ** Imported helpers

    [getFocusedEditor] (utils/focused-editor), [getAtPath], [setAtPath]
    (utils/js-path) and [toggleMonaco] (utils/toggle-monaco) are imported by
    the component; the component is defined over any implementation of
    them. *)

Class FocusedEditor := {
  getFocusedEditor : option registry -> result (option editor)
}.

Class JsPath := {
  getAtPath : string -> value -> heap -> result value;
  setAtPath : string -> value -> value -> heap -> result unit * heap
}.

Class ToggleMonaco := {
  toggleMonaco : value -> result value
}.

(** ** executeCommand *)

(** [command.id] where [command] may be [null]. *)
Definition command_id (c : option command) : M string :=
  match c with
  | Some c => ret (cmd_id c)
  | None => throw (TypeError "Cannot read property 'id' of null")
  end.

(** [command.run()] on the action of editor [ed]. *)
Definition command_run (ed : editor) (c : command) : M unit :=
  tell (CommandRun (ed_id ed) (cmd_id c)).

(** The template literal interpolates [command.id] and
    [command.isSupported], the method itself and not its result. *)
Definition trying_to_run (id text : string) : string :=
  "Editors: Trying to run " +:+ id +:+ ". Supported: " +:+ text.

(** [command.isSupported], read as text, where [command] may be [null]. *)
Definition command_isSupported_text (c : option command) : M string :=
  match c with
  | Some c => ret (isSupported_text c)
  | None => throw (TypeError "Cannot read property 'isSupported' of null")
  end.

Definition executeCommand `{!FocusedEditor} (commandId : string) : M unit :=
  let! editor := (fun w => (getFocusedEditor (editors w), w)) in
  match editor with
  | Some editor =>
      let command := getAction editor commandId in
      let! id := command_id command in
      let! text := command_isSupported_text command in
      tell (ConsoleLog (trying_to_run id text)) ;;;
      match command with
      | Some c => if isSupported c then command_run editor c else ret tt
      | None => ret tt
      end
  | None => ret tt
  end.

(** ** toggleEditorOption *)

(** [{ ...o }]: a new object with the own properties of [o]; the values are
    copied as they are, so a nested object is shared with [o]. *)
Definition spread (l : loc) : M loc :=
  fun w =>
    let h := store w in
    (Ok (length h), with_store (h ++ [default ∅ (h !! l)]) w).

(** [Object.keys(window.ElectronFiddle.editors)]. *)
Definition Object_keys (r : registry) : list string := r.*1.

(** [window.ElectronFiddle.editors[key]], [None] for [null] and for a missing
    property. *)
Fixpoint registry_get (key : string) (r : registry) : option editor :=
  match r with
  | [] => None
  | (k, e) :: r' => if decide (k = key) then e else registry_get key r'
  end.

(** [editor.updateOptions(newOptions)]. *)
Definition updateOptions (ed : editor) (opts : loc) : M unit :=
  (fun w => tell (UpdateOptions (ed_id ed) opts (store w)) w) ;;;
  match updateOptions_throws ed with
  | Some e => throw e
  | None => ret tt
  end.

(** [this.setState({ monacoOptions: newOptions })], on a component that is
    mounted: the other fields of the state are kept. *)
Definition setState_monacoOptions (opts : loc) : M unit :=
  fun w =>
    let s := state w in
    (Ok tt,
     emit (SetState opts)
       (with_state {| monaco := monaco s; isMounted := isMounted s;
                      monacoOptions := opts |} w)).

Definition could_not_toggle (path : string) : string :=
  "Editors: Could not toggle property " +:+ path.

(** The first statements of the [try] block: copy the current options, read
    the setting at [path], write the toggled setting back into the copy. *)
Definition next_options `{!JsPath, !ToggleMonaco} (path : string) : M loc :=
  let! monacoOptions := (fun w => (Ok (monacoOptions (state w)), w)) in
  let! newOptions := spread monacoOptions in
  let! currentSetting :=
    (fun w => (getAtPath path (VRef newOptions) (store w), w)) in
  let! toggled := lift_result (toggleMonaco currentSetting) in
  (fun w =>
     let '(r, h) := setAtPath path (VRef newOptions) toggled (store w) in
     (r, with_store h w)) ;;;
  ret newOptions.

(** The callback of [forEach]. *)
Definition push_to (newOptions : loc) (key : string) : M unit :=
  let! editor :=
    (fun w => (Ok (registry_get key (default [] (editors w))), w)) in
  match editor with
  | Some editor => updateOptions editor newOptions
  | None => ret tt
  end.

(** The body of the [try] block. *)
Definition toggle_body `{!JsPath, !ToggleMonaco} (path : string) : M bool :=
  let! newOptions := next_options path in
  let! eds := (fun w => (Ok (default [] (editors w)), w)) in
  forEach (Object_keys eds) (push_to newOptions) ;;;
  setState_monacoOptions newOptions ;;;
  ret true.

Definition toggleEditorOption `{!JsPath, !ToggleMonaco} (path : string) : M bool :=
  fun w =>
    match editors w with
    | None => (Ok false, w)
    | Some _ =>
        try_catch (toggle_body path)
          (fun error =>
             tell (ConsoleWarn (could_not_toggle path) error) ;;;
             ret false) w
    end.

(** [defaultMonacoOptions]: the module-level constant
    [{ minimap: { enabled: false }, wordWrap: 'on' }], two objects in the
    store. *)
Definition default_minimap : loc := 0.
Definition defaultMonacoOptions : loc := 1.

Definition initial_store : heap :=
  [ {[ "enabled" := VBool false ]};
    {[ "minimap" := VRef default_minimap; "wordWrap" := VStr "on" ]} ].

(** The state the constructor sets up: [{ monacoOptions: defaultMonacoOptions }]. *)
Definition constructed : EditorsState :=
  {| monaco := None; isMounted := false; monacoOptions := defaultMonacoOptions |}.

(** ** Helpers that are not part of the sources at hand *)

(** Modelled from the spec: [getFocusedEditor] (utils/focused-editor) is
    imported but its file is missing.  Spec 4.5: the focused pane is found
    "by asking the Editor Registry's handles, in registry order, which one
    reports focus (first match wins; if none report focus, this is a silent
    no-op)". *)
Fixpoint first_focused (r : registry) : option editor :=
  match r with
  | [] => None
  | (_, Some ed) :: r' => if hasTextFocus ed then Some ed else first_focused r'
  | (_, None) :: r' => first_focused r'
  end.

Definition spec_getFocusedEditor (r : option registry) : result (option editor) :=
  Ok (first_focused (default [] r)).

Definition SpecFocusedEditor : FocusedEditor :=
  {| getFocusedEditor := spec_getFocusedEditor |}.

(** [s.split(sep)] for a one-character separator. *)
Fixpoint js_split (sep : ascii) (s : string) : list string :=
  match s with
  | EmptyString => [EmptyString]
  | String c s' =>
      if Ascii.eqb c sep then EmptyString :: js_split sep s'
      else match js_split sep s' with
           | seg :: segs => String c seg :: segs
           | [] => [String c EmptyString]
           end
  end.

Definition unresolved (path : string) : exn :=
  Failure ("path does not resolve: " +:+ path).

(** [v[key]] where [v] refers to an object that has the property [key]. *)
Definition property (h : heap) (v : value) (key : string) : option value :=
  match v with
  | VRef l => o ← h !! l; o !! key
  | _ => None
  end.

(** Modelled from the spec: the traversal of [getAtPath] (utils/js-path, whose
    file is missing), one segment after the other; a segment that is not a
    property of the object at hand makes the path unresolved. *)
Fixpoint get_segments (err : exn) (segs : list string) (v : value) (h : heap)
  : result value :=
  match segs with
  | [] => Ok v
  | s :: segs' =>
      match property h v s with
      | Some v' => get_segments err segs' v' h
      | None => Throw err
      end
  end.

(** Modelled from the spec: [getAtPath] (utils/js-path) is imported but its
    file is missing.  Spec 4.4: "Resolves the current value at [path] within
    the shared OptionsSnapshot (fails ... if [path] does not resolve)"; spec 3:
    the paths are dotted, as in "minimap.enabled". *)
Definition spec_getAtPath (path : string) (obj : value) (h : heap) : result value :=
  get_segments (unresolved path) (js_split "." path) obj h.

(** Modelled from the spec: the traversal of [setAtPath] (utils/js-path, whose
    file is missing) in the object at [l].  Spec 4.4: the new snapshot has
    "that single path replaced (structural copy, original left untouched so
    concurrent readers of the old snapshot are unaffected)"; spec 5: the
    snapshot "is treated as copy-on-write — every mutation produces a new
    object; holders of the previous snapshot are unaffected".  So a nested
    object on the path is not written to: it is copied, the copy takes its
    place in the object at [l], and the traversal goes on in the copy; the
    last segment is set as a property of the object arrived at. *)
Fixpoint set_segments (err : exn) (segs : list string) (l : loc) (x : value)
    (h : heap) : result unit * heap :=
  match segs with
  | [] => (Throw err, h)
  | [s] =>
      match h !! l with
      | Some o => (Ok tt, <[l := <[s := x]> o]> h)
      | None => (Throw err, h)
      end
  | s :: segs' =>
      match h !! l with
      | Some o =>
          match o !! s with
          | Some (VRef l') =>
              match h !! l' with
              | Some o' =>
                  let copy := length h in
                  set_segments err segs' copy x
                    (<[l := <[s := VRef copy]> o]> (h ++ [o']))
              | None => (Throw err, h)
              end
          | _ => (Throw err, h)
          end
      | None => (Throw err, h)
      end
  end.

(** Modelled from the spec: [setAtPath] (utils/js-path) is imported but its
    file is missing.  The caller passes the copy it has just made of the
    current options and drops the result; spec 4.4 and 5 ask that the
    objects of the previous snapshot are left untouched (see
    [set_segments]). *)
Definition spec_setAtPath (path : string) (obj x : value) (h : heap)
  : result unit * heap :=
  match obj with
  | VRef l => set_segments (unresolved path) (js_split "." path) l x h
  | _ => (Throw (unresolved path), h)
  end.

Definition SpecJsPath : JsPath :=
  {| getAtPath := spec_getAtPath; setAtPath := spec_setAtPath |}.

(** Modelled from the spec: [toggleMonaco] (utils/toggle-monaco) is imported
    but its file is missing.  Spec 4.4: "a type-aware toggle rule (boolean →
    negate; tri-state/enum → cycle to next defined value)", and a
    "non-togglable leaf value" makes the toggle fail.  The spec does not list
    the enumerations: [next] gives the value that follows an enumeration
    value, and [None] for a string that is none. *)
Definition spec_toggleMonaco (next : string -> option string) (input : value)
  : result value :=
  match input with
  | VBool b => Ok (VBool (negb b))
  | VStr s =>
      match next s with
      | Some s' => Ok (VStr s')
      | None => Throw (Failure "not togglable")
      end
  | _ => Throw (Failure "not togglable")
  end.

Definition SpecToggleMonaco (next : string -> option string) : ToggleMonaco :=
  {| toggleMonaco := spec_toggleMonaco next |}.

(** The two-valued enumeration of [wordWrap: 'on']. *)
Definition on_off (s : string) : option string :=
  if decide (s = "on") then Some "off"
  else if decide (s = "off") then Some "on"
  else None.

(** [toggleEditorOption] with the modelled helpers. *)
Definition spec_toggle (next : string -> option string) (path : string) : M bool :=
  @toggleEditorOption SpecJsPath (SpecToggleMonaco next) path.

(** ** loadMonaco

    [loadMonaco] is an [async] method with one [await]: a call that finds
    [app.monaco] set runs to its end at once; a call that does not calls
    [loader()] and is suspended until that load resolves or is rejected.
    The process is a state machine over the calls, the resolutions and the
    rejections; the engine a load resolves to is named by the number of the
    [loader()] call that started it. *)

Record process := {
  app_monaco : option nat;           (* window.ElectronFiddle.app.monaco *)
  loader_calls : nat;                (* calls of loader() so far *)
  awaiting : list (nat * nat);       (* suspended calls: load, component *)
  components : gmap nat EditorsState;
  themed : list nat;                 (* engines handed to activateTheme *)
  rejected : list nat                (* components whose load was rejected *)
}.

Definition initial_process : process :=
  {| app_monaco := None; loader_calls := 0; awaiting := [];
     components := ∅; themed := []; rejected := [] |}.

(** What follows [const monaco = ...] in [loadMonaco], for component [c]. *)
Definition loadMonaco_rest (c : nat) (engine : nat) (p : process) : process :=
  let app :=
    match app_monaco p with
    | None => Some engine
    | Some m => Some m
    end in
  let fresh_state :=
    {| monaco := Some engine; isMounted := false;
       monacoOptions := defaultMonacoOptions |} in
  let st :=
    match components p !! c with
    | Some s =>
        if isMounted s
        then {| monaco := Some engine; isMounted := true;
                monacoOptions := monacoOptions s |}
        else fresh_state
    | None => fresh_state
    end in
  {| app_monaco := app; loader_calls := loader_calls p;
     awaiting := awaiting p; components := <[c := st]> (components p);
     themed := themed p ++ [engine];
       rejected := rejected p |}.

(** [loadMonaco()] up to its end or up to the [await]. *)
Definition loadMonaco (c : nat) (p : process) : process :=
  match app_monaco p with
  | Some m => loadMonaco_rest c m p
  | None =>
      {| app_monaco := None; loader_calls := S (loader_calls p);
         awaiting := awaiting p ++ [(loader_calls p, c)];
         components := components p; themed := themed p;
       rejected := rejected p |}
  end.

(** The constructor: [this.state = { monacoOptions }; this.loadMonaco()]. *)
Definition construct (c : nat) (p : process) : process :=
  loadMonaco c
    {| app_monaco := app_monaco p; loader_calls := loader_calls p;
       awaiting := awaiting p;
       components := <[c := constructed]> (components p);
       themed := themed p;
       rejected := rejected p |}.

(** [componentDidMount]: [this.setState({ isMounted: true })]. *)
Definition componentDidMount (c : nat) (p : process) : process :=
  {| app_monaco := app_monaco p; loader_calls := loader_calls p;
     awaiting := awaiting p;
     components :=
       alter (fun s => {| monaco := monaco s; isMounted := true;
                          monacoOptions := monacoOptions s |}) c (components p);
     themed := themed p;
       rejected := rejected p |}.

Fixpoint take_awaiting (k : nat) (l : list (nat * nat))
  : option (nat * list (nat * nat)) :=
  match l with
  | [] => None
  | (k', c) :: l' =>
      if decide (k' = k) then Some (c, l')
      else '(c', rest) ← take_awaiting k l'; Some (c', (k', c) :: rest)
  end.

(** The [k]-th load resolves and the call suspended on it goes on. *)
Definition resolve (k : nat) (p : process) : process :=
  match take_awaiting k (awaiting p) with
  | Some (c, rest) =>
      loadMonaco_rest c k
        {| app_monaco := app_monaco p; loader_calls := loader_calls p;
           awaiting := rest; components := components p; themed := themed p;
       rejected := rejected p |}
  | None => p
  end.

(** The [k]-th load is rejected: the [await] throws inside [loadMonaco],
    which has no [try]; the call suspended on the load ends there, before
    [app.monaco], the state and the theme are touched. *)
Definition reject (k : nat) (p : process) : process :=
  match take_awaiting k (awaiting p) with
  | Some (c, rest) =>
      {| app_monaco := app_monaco p; loader_calls := loader_calls p;
         awaiting := rest; components := components p; themed := themed p;
         rejected := rejected p ++ [c] |}
  | None => p
  end.

Inductive turn :=
| Construct (c : nat)
| DidMount (c : nat)
| Resolve (k : nat)
| RejectLoad (k : nat).

Definition turn_step (p : process) (t : turn) : process :=
  match t with
  | Construct c => construct c p
  | DidMount c => componentDidMount c p
  | Resolve k => resolve k p
  | RejectLoad k => reject k p
  end.

Definition run_turns (ts : list turn) (p : process) : process :=
  fold_left turn_step ts p.

(** ** The layout reaction *)

Inductive EditorId := main | renderer | html.

Inductive MosaicDirection := row | column.

(** [MosaicNode<EditorId>]: a pane, or a split with an optional
    percentage. *)
Inductive MosaicNode :=
| MosaicLeaf (id : EditorId)
| MosaicParent (direction : MosaicDirection) (first second : MosaicNode)
    (splitPercentage : option Z).

Record layout := {
  mosaicArrangement : option MosaicNode;   (* appState.mosaicArrangement *)
  now : nat;                               (* the clock, in milliseconds *)
  pending : option nat;                    (* when the delayed call is due *)
  written : list (option MosaicNode)       (* the writes, oldest first *)
}.

(** Modelled from the spec: [updateEditorLayout] (utils/editor-layout) is
    imported but its file is missing; the source says of it "That method is
    itself debounced".  Spec 4.6: "On each change, schedules a persistence
    write after a fixed settle delay ... If another change arrives before
    the delay elapses, the prior pending write is cancelled and a new one is
    scheduled".  The reaction passes no argument, so the delayed write takes
    the arrangement that is current when it runs. *)
Definition updateEditorLayout (delay : nat) (s : layout) : layout :=
  {| mosaicArrangement := mosaicArrangement s; now := now s;
     pending := Some (now s + delay); written := written s |}.

(** Modelled from the spec: what the debounced [updateEditorLayout] does
    when its delay is over (its file is missing).  Spec 4.6: "only the latest
    arrangement is ever persisted".  Time passes until [t]; a delayed call
    that is due by then runs and writes the arrangement. *)
Definition elapse (t : nat) (s : layout) : layout :=
  let t' := Nat.max (now s) t in
  match pending s with
  | Some due =>
      if (due <=? t')%nat
      then {| mosaicArrangement := mosaicArrangement s; now := t';
              pending := None;
              written := written s ++ [mosaicArrangement s] |}
      else {| mosaicArrangement := mosaicArrangement s; now := t';
              pending := Some due; written := written s |}
  | None =>
      {| mosaicArrangement := mosaicArrangement s; now := t';
         pending := None; written := written s |}
  end.

(** [onChange(currentNode)] assigns the arrangement, a new tree each time,
    and the reaction [disposeLayoutAutorun] answers the change with
    [updateEditorLayout()]. *)
Definition onChange (delay : nat) (currentNode : option MosaicNode) (s : layout)
  : layout :=
  updateEditorLayout delay
    {| mosaicArrangement := currentNode; now := now s;
       pending := pending s; written := written s |}.

Inductive occurrence :=
| Change (t : nat) (currentNode : option MosaicNode)
| Idle (t : nat).

Definition occur (delay : nat) (s : layout) (o : occurrence) : layout :=
  match o with
  | Change t node => onChange delay node (elapse t s)
  | Idle t => elapse t s
  end.

Definition run_layout (delay : nat) (os : list occurrence) (s : layout) : layout :=
  fold_left (occur delay) os s.

(** ** Editors and worlds of the scenarios *)

(** An editor whose actions are those of [actions]; [getAction] gives
    [null] for any other id. *)
Definition monaco_editor (id : string) (focus : bool) (actions : list command)
    (throws : option exn) : editor :=
  {| ed_id := id; hasTextFocus := focus;
     getAction := fun a => List.find (fun c => bool_decide (cmd_id c = a)) actions;
     updateOptions_throws := throws |}.

Definition undo : command :=
  {| cmd_id := "undo"; isSupported_text := "isSupported() { return true; }";
     isSupported := true |}.

Definition main_editor : editor := monaco_editor "main" false [undo] None.
Definition renderer_editor : editor := monaco_editor "renderer" false [undo] None.
Definition focused_renderer : editor := monaco_editor "renderer" true [undo] None.
Definition unready_main : editor :=
  monaco_editor "main" false [undo] (Some (Failure "editor not ready")).

Definition world_of (r : option registry) : world :=
  {| editors := r; state := constructed; store := initial_store; console := [] |}.

(** Both panes mounted, none focused. *)
Definition two_panes : world :=
  world_of (Some [("main", Some main_editor); ("renderer", Some renderer_editor)]).

(** Both panes mounted, the renderer pane focused. *)
Definition renderer_focused : world :=
  world_of (Some [("main", Some main_editor); ("renderer", Some focused_renderer)]).

(** The main pane's widget rejects options. *)
Definition main_unready : world :=
  world_of (Some [("main", Some unready_main); ("renderer", Some renderer_editor)]).

(** The html pane is not mounted. *)
Definition html_unmounted : world :=
  world_of (Some [("main", Some main_editor); ("html", None);
                  ("renderer", Some renderer_editor)]).

(** An action the editor has and cannot run in its present state. *)
Definition redo_unsupported : command :=
  {| cmd_id := "redo"; isSupported_text := "isSupported() { return false; }";
     isSupported := false |}.

(** The renderer pane focused, with a supported and an unsupported action. *)
Definition busy_renderer : world :=
  world_of (Some [("main", Some main_editor);
                  ("renderer",
                   Some (monaco_editor "renderer" true [undo; redo_unsupported]
                           None))]).

(** The store after [minimap.enabled] was toggled in the initial store: the
    new options object, number 2, and its own [minimap] object, number 3. *)
Definition minimap_toggled : heap :=
  [ {[ "enabled" := VBool false ]};
    {[ "minimap" := VRef 0; "wordWrap" := VStr "on" ]};
    {[ "minimap" := VRef 3; "wordWrap" := VStr "on" ]};
    {[ "enabled" := VBool true ]} ].

(** No [window.ElectronFiddle.editors] at all. *)
Definition no_registry : world := world_of None.

(** The editors of a registry that are mounted, in registry order. *)
Definition mounted (r : registry) : list editor := omap snd r.

(** ** Well-formed stores and resolvable paths *)

(** A reference points into the store. *)
Definition in_store (h : heap) (v : value) : bool :=
  match v with
  | VRef l => bool_decide (l < length h)%nat
  | _ => true
  end.

(** No object of the store holds a dangling reference. *)
Definition closed (h : heap) : bool :=
  forallb (fun o : gmap string value =>
             forallb (fun kv : string * value => in_store h kv.2) (map_to_list o)) h.

Definition well_formed (w : world) : bool :=
  closed (store w) && in_store (store w) (VRef (monacoOptions (state w))).

Definition togglable (next : string -> option string) (v : value) : bool :=
  match spec_toggleMonaco next v with
  | Ok _ => true
  | Throw _ => false
  end.

(** [path] resolves in the current options: it leads to a value the toggle
    rule applies to. *)
Definition resolves (next : string -> option string) (path : string) (w : world)
  : bool :=
  match spec_getAtPath path (VRef (monacoOptions (state w))) (store w) with
  | Ok v => togglable next v
  | Throw _ => false
  end.

(** A value that is not a reference to an object. *)
Definition is_primitive (v : value) : bool :=
  match v with
  | VRef _ => false
  | _ => true
  end.

(** ** Layouts of the scenarios *)

Definition two_panes_side_by_side : MosaicNode :=
  MosaicParent row (MosaicLeaf main) (MosaicLeaf renderer) (Some 50%Z).

Definition three_panes : MosaicNode :=
  MosaicParent row (MosaicLeaf main)
    (MosaicParent column (MosaicLeaf renderer) (MosaicLeaf html) None) (Some 30%Z).

Definition initial_layout : layout :=
  {| mosaicArrangement := None; now := 0; pending := None; written := [] |}.

(** What pushing the options object [l], in the store [h], to the editors
    [eds], one after the other, adds to the trace, and the exception that
    ends it, if any. *)
Fixpoint push_all (l : loc) (h : heap) (eds : list editor)
  : list event * option exn :=
  match eds with
  | [] => ([], None)
  | ed :: eds' =>
      match updateOptions_throws ed with
      | Some e => ([UpdateOptions (ed_id ed) l h], Some e)
      | None =>
          let '(evs, r) := push_all l h eds' in
          (UpdateOptions (ed_id ed) l h :: evs, r)
      end
  end.

Definition emit_all (evs : list event) (w : world) : world :=
  {| editors := editors w; state := state w; store := store w;
     console := console w ++ evs |}.

Definition outcome (r : option exn) : result unit :=
  match r with
  | None => Ok tt
  | Some e => Throw e
  end.

Definition accepts (ed : editor) : Prop := updateOptions_throws ed = None.

(** ** componentDidMount: the listeners

    [componentDidMount] registers a listener for
    [IpcEvents.MONACO_EXECUTE_COMMAND] and one for
    [IpcEvents.MONACO_TOGGLE_OPTION]; each hands the payload to the method
    of the same purpose.  (The third listener, of [FS_NEW_FIDDLE], works on
    the application state and the editors' contents, which this component
    does not hold.) *)

Inductive message :=
| MONACO_EXECUTE_COMMAND (cmd : string)
| MONACO_TOGGLE_OPTION (cmd : string).

(** The listeners; the result of [toggleEditorOption] is dropped. *)
Definition listener `{!FocusedEditor, !JsPath, !ToggleMonaco} (m : message)
  : M unit :=
  match m with
  | MONACO_EXECUTE_COMMAND cmd => executeCommand cmd
  | MONACO_TOGGLE_OPTION cmd => toggleEditorOption cmd ;;; ret tt
  end.

(** Messages are handled one per turn of the event loop: an exception ends
    the listener it is thrown in and not the turns that follow. *)
Fixpoint deliver `{!FocusedEditor, !JsPath, !ToggleMonaco} (ms : list message)
    (w : world) : list (result unit) * world :=
  match ms with
  | [] => ([], w)
  | m :: ms' =>
      let '(r, w1) := listener m w in
      let '(rs, w2) := deliver ms' w1 in
      (r :: rs, w2)
  end.

(** ** render *)

(** [TITLE_MAP]. *)
Definition TITLE_MAP (id : EditorId) : string :=
  match id with
  | main => "Main Process"
  | renderer => "Renderer Process"
  | html => "HTML"
  end.

(** A step of the path to a tile: ['first'] or ['second']. *)
Inductive MosaicBranch := first_branch | second_branch.

(** What [renderToolbar] shows: the title, and the two buttons with the pane
    they act on. *)
Record Toolbar := {
  heading : string;
  maximize_button : EditorId;
  remove_button : EditorId
}.

Definition renderToolbar (title : string) (id : EditorId) : Toolbar :=
  {| heading := title; maximize_button := id; remove_button := id |}.

(** The props of [<Editor>]. *)
Record EditorProps := {
  editor_id : EditorId;
  editor_monaco : nat;
  monoacoOptions : loc
}.

(** The props of [<ViewIdMosaicWindow>] and its child. *)
Record WindowProps := {
  className : EditorId;
  window_path : list MosaicBranch;
  window_title : string;
  window_toolbar : string -> Toolbar;
  window_child : EditorProps
}.

(** The props of [<ViewIdMosaic>]. *)
Record MosaicProps := {
  mosaic_value : option MosaicNode;
  renderTile : EditorId -> list MosaicBranch -> WindowProps
}.

(** [render()], for the arrangement of the application state; [None] is
    [null]. *)
Definition render (arrangement : option MosaicNode) (s : EditorsState)
  : option MosaicProps :=
  match monaco s with
  | None => None
  | Some engine =>
      Some
        {| mosaic_value := arrangement;
           renderTile := fun id path =>
             {| className := id;
                window_path := path;
                window_title := TITLE_MAP id;
                window_toolbar := fun title => renderToolbar title id;
                window_child :=
                  {| editor_id := id; editor_monaco := engine;
                     monoacoOptions := defaultMonacoOptions |} |} |}
  end.

(** The state [loadMonaco] assigns to a component that has not mounted. *)
Definition loaded_unmounted (engine : nat) : EditorsState :=
  {| monaco := Some engine; isMounted := false;
     monacoOptions := defaultMonacoOptions |}.

(** ** Turns of the loader, counted *)

Definition is_construct (t : turn) : bool :=
  match t with
  | Construct _ => true
  | _ => false
  end.

(** The number of components constructed in [ts]. *)
Definition constructed_in (ts : list turn) : nat :=
  length (List.filter is_construct ts).

(** The loads that suspended calls wait for are distinct and have been
    started, and so has the load the cached engine comes from. *)
Definition loads_consistent (p : process) : Prop :=
  NoDup (awaiting p).*1
  /\ Forall (fun k => (k < loader_calls p)%nat) (awaiting p).*1
  /\ forall m, app_monaco p = Some m -> (m < loader_calls p)%nat.

(** The engine in the state of component [c], if the component exists. *)
Definition engine_of (c : nat) (q : process) : option (option nat) :=
  monaco <$> components q !! c.

(** Component [c] has no engine yet, and no load but [n] can give it one. *)
Definition waits_for (c n : nat) (q : process) : Prop :=
  engine_of c q = Some None
  /\ forall k, (k, c) ∈ awaiting q -> k = n.

(** An engine is cached and component [c] has one. *)
Definition has_engine (c : nat) (q : process) : Prop :=
  is_Some (app_monaco q) /\ exists e, engine_of c q = Some (Some e).

(* ================================================================= *)
(** * Properties *)

(** ** executeCommand *)

Section ExecuteCommand.
Context `{!FocusedEditor}.

(** When no editor has the focus, [executeCommand] does nothing at
    all: no lookup of the action, no log line, no run, no exception. *)
Lemma executeCommand_no_focus commandId w :
  getFocusedEditor (editors w) = Ok None ->
  executeCommand commandId w = (Ok tt, w).
Proof. intros Hf. unfold executeCommand, bind. now rewrite Hf. Qed.

(** When the focused editor has the action and the action reports
    itself unsupported, [executeCommand] prints its log line and returns
    without running the action. *)
Lemma executeCommand_unsupported commandId w ed c :
  getFocusedEditor (editors w) = Ok (Some ed) ->
  getAction ed commandId = Some c ->
  isSupported c = false ->
  executeCommand commandId w
  = (Ok tt, emit (ConsoleLog (trying_to_run (cmd_id c) (isSupported_text c))) w).
Proof.
  intros Hf Ha Hs. unfold executeCommand, bind.
  rewrite Hf, Ha. cbn. now rewrite Hs.
Qed.

(** C1: when the focused editor has no action for [commandId],
    [getAction] gives [null] and the log line reads [command.id] before the
    [command &&] guard is reached: a [TypeError] leaves [executeCommand]. *)
Theorem executeCommand_null_command commandId w ed :
  getFocusedEditor (editors w) = Ok (Some ed) ->
  getAction ed commandId = None ->
  executeCommand commandId w
  = (Throw (TypeError "Cannot read property 'id' of null"), w).
Proof.
  intros Hf Ha. unfold executeCommand, bind. now rewrite Hf, Ha.
Qed.

(** C6: with a focused editor whose action for [commandId] exists and is
    supported, [executeCommand] returns normally with nothing but
    [undefined], and what it adds to the trace is its log line followed by
    one [run] of that action on the focused editor: one invocation, none on
    another editor. *)
Theorem executeCommand_runs_once commandId w ed c :
  getFocusedEditor (editors w) = Ok (Some ed) ->
  getAction ed commandId = Some c ->
  isSupported c = true ->
  executeCommand commandId w
  = (Ok tt,
     {| editors := editors w; state := state w; store := store w;
        console := console w ++ [ConsoleLog (trying_to_run (cmd_id c) (isSupported_text c));
                                 CommandRun (ed_id ed) (cmd_id c)] |}).
Proof.
  intros Hf Ha Hs. unfold executeCommand, bind.
  rewrite Hf, Ha. cbn. rewrite Hs. cbn.
  unfold command_run, tell, emit; cbn.
  now rewrite <- (assoc_L (++)).
Qed.

End ExecuteCommand.

(** The scenario of the spec: the renderer pane is focused and has a
    supported [undo]. *)
Lemma executeCommand_runs_once_witness :
  @executeCommand SpecFocusedEditor "undo" renderer_focused
  = (Ok tt,
     {| editors := editors renderer_focused; state := constructed;
        store := initial_store;
        console := [ConsoleLog "Editors: Trying to run undo. Supported: isSupported() { return true; }";
                    CommandRun "renderer" "undo"] |}).
Proof.
  apply (@executeCommand_runs_once SpecFocusedEditor "undo" renderer_focused
           focused_renderer undo); reflexivity.
Defined.

(** The renderer pane is focused and has no action called "format". *)
Lemma executeCommand_null_command_witness :
  @executeCommand SpecFocusedEditor "format" renderer_focused
  = (Throw (TypeError "Cannot read property 'id' of null"), renderer_focused).
Proof.
  apply (@executeCommand_null_command SpecFocusedEditor "format"
           renderer_focused focused_renderer); reflexivity.
Defined.

(** ** toggleEditorOption, for any implementation of the helpers *)

Lemma emit_all_nil w : emit_all [] w = w.
Proof. destruct w; unfold emit_all; cbn. now rewrite app_nil_r. Qed.

Lemma emit_all_emit e evs w : emit_all evs (emit e w) = emit_all (e :: evs) w.
Proof. unfold emit_all, emit; cbn. now rewrite <- (assoc_L (++)). Qed.

Lemma push_all_accepted l h eds :
  Forall accepts eds ->
  push_all l h eds = (map (fun ed => UpdateOptions (ed_id ed) l h) eds, None).
Proof.
  induction 1 as [|ed eds Hed _ IH]; [reflexivity|].
  cbn. rewrite Hed, IH. reflexivity.
Qed.

Lemma push_all_rejected l h pre ed post e :
  Forall accepts pre ->
  updateOptions_throws ed = Some e ->
  push_all l h (pre ++ ed :: post)
  = (map (fun ed => UpdateOptions (ed_id ed) l h) pre
     ++ [UpdateOptions (ed_id ed) l h],
     Some e).
Proof.
  intros Hpre He. induction Hpre as [|x pre Hx _ IH]; cbn.
  - now rewrite He.
  - rewrite Hx, IH. reflexivity.
Qed.

(** Looking the keys of a registry up in it, one by one, visits its mounted
    editors. *)
Lemma registry_get_keys (r : registry) :
  NoDup (Object_keys r) ->
  omap (fun key => registry_get key r) (Object_keys r) = mounted r.
Proof.
  unfold Object_keys, mounted.
  induction r as [|[k e] r IH]; [reflexivity|].
  cbn [fmap list_fmap omap list_omap fst snd registry_get].
  intros Hnd. apply NoDup_cons in Hnd as [Hk Hnd].
  rewrite decide_True by reflexivity.
  assert (Hrest : omap (fun key => if decide (k = key) then e else registry_get key r) r.*1
                  = omap (fun key => registry_get key r) r.*1).
  { clear IH Hnd. revert Hk. generalize (r.*1) as keys.
    induction keys as [|k' keys IHk]; [reflexivity|].
    intros Hk. apply not_elem_of_cons in Hk as [Hne Hk].
    cbn [omap list_omap]. rewrite decide_False by exact Hne.
    now rewrite IHk. }
  rewrite Hrest, IH by exact Hnd. reflexivity.
Qed.

(** The copy made by [{ ...monacoOptions }] is a new object, no object that
    was in the store is touched by it, and its properties are those of the
    original, value by value. *)
Lemma spread_shares l w o :
  store w !! l = Some o ->
  exists w',
    spread l w = (Ok (length (store w)), w')
    /\ store w' !! length (store w) = Some o
    /\ (forall l' o', store w !! l' = Some o' -> store w' !! l' = Some o')
    /\ forall key,
         property (store w') (VRef (length (store w))) key
         = property (store w) (VRef l) key.
Proof.
  intros Hl. eexists. split; [reflexivity|]. cbn. rewrite Hl. cbn.
  repeat split.
  - now apply list_lookup_middle.
  - intros l' o' Hl'. rewrite lookup_app_l; [exact Hl'|].
    eapply lookup_lt_Some; eauto.
  - intros key. now rewrite list_lookup_middle by reflexivity.
Qed.

Lemma updateOptions_eq ed l w :
  updateOptions ed l w
  = (outcome (updateOptions_throws ed),
     emit (UpdateOptions (ed_id ed) l (store w)) w).
Proof.
  unfold updateOptions, bind, tell.
  now destruct (updateOptions_throws ed).
Qed.

Lemma push_to_eq l key w reg :
  editors w = Some reg ->
  push_to l key w
  = match registry_get key reg with
    | Some ed => updateOptions ed l w
    | None => (Ok tt, w)
    end.
Proof.
  intros Hreg. unfold push_to, bind. rewrite Hreg. cbn.
  now destruct (registry_get key reg).
Qed.

Lemma forEach_push_to keys : forall w reg l,
  editors w = Some reg ->
  let eds := omap (fun key => registry_get key reg) keys in
  forEach keys (push_to l) w
  = (outcome (push_all l (store w) eds).2,
     emit_all (push_all l (store w) eds).1 w).
Proof.
  induction keys as [|key keys IH]; intros w reg l Hreg; cbn zeta.
  - cbn. now rewrite emit_all_nil.
  - cbn [forEach omap list_omap]. unfold bind at 1.
    rewrite (push_to_eq l key w reg Hreg).
    destruct (registry_get key reg) as [ed|]; cbn [push_all].
    + rewrite updateOptions_eq.
      destruct (updateOptions_throws ed) as [e|]; cbn [outcome].
      * reflexivity.
      * rewrite (IH (emit (UpdateOptions (ed_id ed) l (store w)) w) reg l)
          by exact Hreg.
        cbn zeta. cbn [store emit]. destruct (push_all l _ _) as [evs r]; cbn.
        now rewrite emit_all_emit.
    + now apply IH.
Qed.

Section Toggle.
Context `{!JsPath, !ToggleMonaco}.

(** The helpers reach the store only. *)
Lemma next_options_frame path w r w1 :
  next_options path w = (r, w1) ->
  editors w1 = editors w /\ state w1 = state w /\ console w1 = console w.
Proof.
  unfold next_options, bind, spread, lift_result, ret. cbn.
  destruct (getAtPath _ _ _) as [cur|e]; cbn;
    [|intros [= <- <-]; now cbn].
  destruct (toggleMonaco cur) as [v|e]; cbn;
    [|intros [= <- <-]; now cbn].
  destruct (setAtPath _ _ _ _) as [[[]|e] h]; cbn;
    intros [= <- <-]; now cbn.
Qed.

Lemma toggle_body_eq path w reg l w1 :
  editors w = Some reg ->
  NoDup (Object_keys reg) ->
  next_options path w = (Ok l, w1) ->
  toggle_body path w
  = match push_all l (store w1) (mounted reg) with
    | (evs, None) =>
        (Ok true,
         {| editors := editors w; state := {| monaco := monaco (state w); isMounted := isMounted (state w);
                      monacoOptions := l |};
            store := store w1; console := console w ++ evs ++ [SetState l] |})
    | (evs, Some e) =>
        (Throw e,
         {| editors := editors w; state := state w;
            store := store w1; console := console w ++ evs |})
    end.
Proof.
  intros Hreg Hnd Hnext.
  destruct (next_options_frame _ _ _ _ Hnext) as (He & Hs & Hc).
  unfold toggle_body. unfold bind at 1. rewrite Hnext.
  unfold bind at 1. rewrite He, Hreg. cbn [from_option id].
  unfold bind at 1.
  rewrite (forEach_push_to _ w1 reg l) by congruence.
  cbn zeta. rewrite registry_get_keys by exact Hnd.
  destruct (push_all l (store w1) (mounted reg)) as [evs [e|]]; cbn.
  - unfold emit_all. now rewrite He, Hs, Hc, Hreg.
  - unfold setState_monacoOptions, emit_all, emit, with_state, bind, ret.
    cbn. rewrite He, Hs, Hc, Hreg. now rewrite <- (assoc_L (++)).
Qed.

Lemma toggle_body_throw_frame path w reg e w' :
  editors w = Some reg ->
  toggle_body path w = (Throw e, w') ->
  state w' = state w /\ editors w' = editors w.
Proof.
  intros Hreg. unfold toggle_body. unfold bind at 1.
  destruct (next_options path w) as [[l|e1] w1] eqn:Hnext;
    destruct (next_options_frame _ _ _ _ Hnext) as (He & Hs & Hc).
  - unfold bind at 1. rewrite He, Hreg. cbn [from_option id].
    unfold bind at 1.
    rewrite (forEach_push_to _ w1 reg l) by congruence. cbn zeta.
    destruct (push_all l _ _) as [evs [e2|]]; cbn.
    + intros [= <- <-]. cbn. split; congruence.
    + discriminate.
  - intros [= <- <-]. split; congruence.
Qed.

Lemma toggleEditorOption_some path w reg :
  editors w = Some reg ->
  toggleEditorOption path w
  = match toggle_body path w with
    | (Ok b, w') => (Ok b, w')
    | (Throw e, w') => (Ok false, emit (ConsoleWarn (could_not_toggle path) e) w')
    end.
Proof.
  intros Hreg. unfold toggleEditorOption, try_catch. rewrite Hreg.
  now destruct (toggle_body path w) as [[b|e] w'].
Qed.

Lemma toggle_result_ok path w :
  exists b w', toggleEditorOption path w = (Ok b, w').
Proof.
  destruct (editors w) as [reg|] eqn:Hreg.
  - rewrite (toggleEditorOption_some _ _ _ Hreg).
    destruct (toggle_body path w) as [[b|e] w']; eauto.
  - unfold toggleEditorOption. rewrite Hreg. eauto.
Qed.

(** X9: no exception leaves [toggleEditorOption], whatever the path, the
    imported helpers and the editors do: the call returns a boolean. *)
Lemma toggleEditorOption_returns path w :
  exists b w', toggleEditorOption path w = (Ok b, w').
Proof. apply toggle_result_ok. Qed.

Lemma toggle_all_accept path w reg l w1 :
  editors w = Some reg ->
  NoDup (Object_keys reg) ->
  next_options path w = (Ok l, w1) ->
  Forall accepts (mounted reg) ->
  toggleEditorOption path w
  = (Ok true,
     {| editors := editors w; state := {| monaco := monaco (state w); isMounted := isMounted (state w);
                      monacoOptions := l |};
        store := store w1;
        console := console w
                   ++ map (fun ed => UpdateOptions (ed_id ed) l (store w1)) (mounted reg)
                   ++ [SetState l] |}).
Proof.
  intros Hreg Hnd Hnext Hacc.
  rewrite (toggleEditorOption_some _ _ _ Hreg).
  rewrite (toggle_body_eq _ _ _ _ _ Hreg Hnd Hnext).
  now rewrite (push_all_accepted _ _ _ Hacc).
Qed.

(** After the options are computed, nothing writes to the store. *)
Lemma toggle_store path w reg :
  editors w = Some reg ->
  store (toggleEditorOption path w).2 = store (next_options path w).2.
Proof.
  intros Hreg. rewrite (toggleEditorOption_some _ _ _ Hreg).
  unfold toggle_body. unfold bind at 1.
  destruct (next_options path w) as [[l|e1] w1] eqn:Hnext;
    destruct (next_options_frame _ _ _ _ Hnext) as (He & Hs & Hc);
    [|reflexivity].
  unfold bind at 1. rewrite He, Hreg. cbn [from_option id].
  unfold bind at 1.
  rewrite (forEach_push_to _ w1 reg l) by congruence. cbn zeta.
  now destruct (push_all l _ _) as [evs [e2|]].
Qed.

Lemma mounted_app (r1 r2 : registry) : mounted (r1 ++ r2) = mounted r1 ++ mounted r2.
Proof. unfold mounted. apply omap_app. Qed.

(** C9: without [window.ElectronFiddle.editors], [toggleEditorOption]
    returns [false] and the world is as it was: no new options object in
    the store, no call to an editor, the state untouched, nothing on the
    console. *)
Theorem toggle_without_registry path w :
  toggleEditorOption path (with_editors None w)
  = (Ok false, with_editors None w).
Proof. reflexivity. Qed.

(** C10: a registry entry bound to [null] is passed over: with such an
    entry anywhere in the registry, a toggle whose options were computed and
    whose mounted editors accept them returns [true], and the calls it made
    are one [updateOptions] for each mounted editor before and after the
    entry, in order, and then [setState]. *)
Theorem toggle_skips_null_handle path w pre key post l w1 :
  editors w = Some (pre ++ (key, None) :: post) ->
  NoDup (Object_keys (pre ++ (key, None) :: post)) ->
  next_options path w = (Ok l, w1) ->
  Forall accepts (mounted pre) ->
  Forall accepts (mounted post) ->
  toggleEditorOption path w
  = (Ok true,
     {| editors := editors w; state := {| monaco := monaco (state w); isMounted := isMounted (state w);
                      monacoOptions := l |};
        store := store w1;
        console := console w
                   ++ map (fun ed => UpdateOptions (ed_id ed) l (store w1))
                        (mounted pre ++ mounted post)
                   ++ [SetState l] |}).
Proof.
  intros Hreg Hnd Hnext Hpre Hpost.
  rewrite (toggle_all_accept _ _ _ _ _ Hreg Hnd Hnext).
  - now rewrite mounted_app.
  - rewrite mounted_app. apply Forall_app. split; assumption.
Qed.

(** C3, as the code has it: one [try] encloses the whole push.  Whenever
    [toggleEditorOption] returns [false], [state.monacoOptions] is the
    reference it was.  When an editor throws on [updateOptions], the
    exception is caught and logged by [console.warn], the editors before it
    have been called, the editors after it are not called, [setState] is not
    reached and the result is [false]. *)
Theorem toggle_apply_failure path w :
  (forall w', toggleEditorOption path w = (Ok false, w') -> state w' = state w)
  /\ (forall pre key ed post e l w1,
        editors w = Some (pre ++ (key, Some ed) :: post) ->
        NoDup (Object_keys (pre ++ (key, Some ed) :: post)) ->
        next_options path w = (Ok l, w1) ->
        Forall accepts (mounted pre) ->
        updateOptions_throws ed = Some e ->
        toggleEditorOption path w
        = (Ok false,
           {| editors := editors w; state := state w; store := store w1;
              console := console w
                         ++ map (fun ed => UpdateOptions (ed_id ed) l (store w1))
                              (mounted pre)
                         ++ [UpdateOptions (ed_id ed) l (store w1);
                             ConsoleWarn (could_not_toggle path) e] |})).
Proof.
  split.
  - intros w'. destruct (editors w) as [reg|] eqn:Hreg.
    + rewrite (toggleEditorOption_some _ _ _ Hreg).
      destruct (toggle_body path w) as [[b|e] w2] eqn:Hbody.
      * unfold toggle_body, bind in Hbody.
        destruct (next_options path w) as [[l|e1] w1]; [|discriminate].
        destruct (forEach _ _ _) as [[[]|e2] w3]; [|discriminate].
        cbn in Hbody. injection Hbody as <- _. discriminate.
      * intros [= <-]. cbn.
        now destruct (toggle_body_throw_frame _ _ _ _ _ Hreg Hbody).
    + unfold toggleEditorOption. rewrite Hreg. now intros [= <-].
  - intros pre key ed post e l w1 Hreg Hnd Hnext Hpre He.
    rewrite (toggleEditorOption_some _ _ _ Hreg).
    rewrite (toggle_body_eq _ _ _ _ _ Hreg Hnd Hnext).
    rewrite mounted_app. cbn [mounted omap list_omap snd].
    change (omap snd post) with (mounted post).
    rewrite (push_all_rejected l (store w1) (mounted pre) ed (mounted post) e
               Hpre He).
    unfold emit; cbn. now rewrite <- !(assoc_L (++)).
Qed.

End Toggle.

Lemma toggle_skips_null_handle_witness :
  spec_toggle on_off "minimap.enabled" html_unmounted
  = (Ok true,
     {| editors := editors html_unmounted;
        state := {| monaco := None; isMounted := false; monacoOptions := 2 |};
        store := minimap_toggled;
        console := [UpdateOptions "main" 2 minimap_toggled;
                    UpdateOptions "renderer" 2 minimap_toggled;
                    SetState 2] |}).
Proof.
  apply (@toggle_skips_null_handle SpecJsPath (SpecToggleMonaco on_off)
           "minimap.enabled" html_unmounted
           [("main", Some main_editor)] "html"
           [("renderer", Some renderer_editor)] 2
           (with_store minimap_toggled html_unmounted)).
  - reflexivity.
  - refine (bool_decide_unpack _ _). vm_compute. exact I.
  - vm_compute. reflexivity.
  - repeat constructor.
  - repeat constructor.
Defined.

Lemma toggle_apply_failure_witness :
  spec_toggle on_off "minimap.enabled" main_unready
  = (Ok false,
     {| editors := editors main_unready;
        state := constructed;
        store := minimap_toggled;
        console := [UpdateOptions "main" 2 minimap_toggled;
                    ConsoleWarn "Editors: Could not toggle property minimap.enabled"
                      (Failure "editor not ready")] |}).
Proof.
  apply (proj2 (@toggle_apply_failure SpecJsPath (SpecToggleMonaco on_off)
                  "minimap.enabled" main_unready)
           [] "main" unready_main [("renderer", Some renderer_editor)]
           (Failure "editor not ready") 2
           (with_store minimap_toggled main_unready)).
  - reflexivity.
  - refine (bool_decide_unpack _ _). vm_compute. exact I.
  - vm_compute. reflexivity.
  - constructor.
  - reflexivity.
Defined.

(** C3, the claim as written fails: the main pane's editor throws on
    [updateOptions], and the renderer pane's editor, next in the registry,
    is never handed the new options. *)
Lemma toggle_apply_failure_stops_the_push :
  let w' := (spec_toggle on_off "minimap.enabled" main_unready).2 in
  In (UpdateOptions "main" 2 minimap_toggled) (console w')
  /\ ~ (exists l seen, In (UpdateOptions "renderer" l seen) (console w')).
Proof.
  vm_compute. split; [now left|].
  intros (l & seen & [H|[H|[]]]); discriminate.
Qed.

(** ** toggleEditorOption with the modelled helpers *)

Lemma js_split_nonempty sep s : js_split sep s <> [].
Proof.
  destruct s as [|c s]; cbn; [discriminate|].
  destruct (Ascii.eqb c sep); [discriminate|].
  destruct (js_split sep s); discriminate.
Qed.

Lemma closed_lookup (h : heap) l o k v :
  closed h = true -> h !! l = Some o -> o !! k = Some v -> in_store h v = true.
Proof.
  unfold closed. rewrite forallb_forall. intros Hcl Hl Hk.
  assert (Ho : In o h) by (apply list_elem_of_In; eapply list_elem_of_lookup_2; eauto).
  specialize (Hcl o Ho). rewrite forallb_forall in Hcl.
  apply (Hcl (k, v)). apply list_elem_of_In. now apply elem_of_map_to_list.
Qed.

Lemma property_closed h v s v' :
  closed h = true -> property h v s = Some v' -> in_store h v' = true.
Proof.
  intros Hcl. destruct v as [| | | |l]; cbn; try discriminate.
  destruct (h !! l) as [o|] eqn:Hl; cbn; [|discriminate].
  intros Hk. eapply closed_lookup; eauto.
Qed.

Lemma property_extend (h : heap) o v s :
  in_store h v = true -> property (h ++ [o]) v s = property h v s.
Proof.
  destruct v as [| | | |l]; cbn; try reflexivity.
  intros Hl. apply bool_decide_eq_true in Hl.
  now rewrite lookup_app_l by exact Hl.
Qed.

Lemma get_segments_extend err segs : forall (h : heap) o v,
  closed h = true -> in_store h v = true ->
  get_segments err segs v (h ++ [o]) = get_segments err segs v h.
Proof.
  induction segs as [|s segs IH]; intros h o v Hcl Hv; [reflexivity|].
  cbn. rewrite property_extend by exact Hv.
  destruct (property h v s) as [v'|] eqn:Hp; [|reflexivity].
  apply IH; [exact Hcl|]. eapply property_closed; eauto.
Qed.

(** Reading a path in the copy made by [spread] is reading it in the
    object that was copied. *)
Lemma get_segments_copy err segs (h : heap) l o :
  segs <> [] -> closed h = true -> h !! l = Some o ->
  get_segments err segs (VRef (length h)) (h ++ [o])
  = get_segments err segs (VRef l) h.
Proof.
  destruct segs as [|s segs]; [congruence|]. intros _ Hcl Hl.
  cbn. rewrite list_lookup_middle by reflexivity. rewrite Hl. cbn.
  destruct (o !! s) as [v|] eqn:Hs; [|reflexivity].
  apply get_segments_extend; [exact Hcl|]. eapply closed_lookup; eauto.
Qed.

Lemma next_options_unresolved next path w :
  well_formed w = true ->
  resolves next path w = false ->
  exists e,
    @next_options SpecJsPath (SpecToggleMonaco next) path w
    = (Throw e,
       with_store (store w ++ [default ∅ (store w !! monacoOptions (state w))]) w).
Proof.
  unfold well_formed, resolves. intros Hwf Hres.
  apply andb_prop in Hwf as [Hcl Hin]. cbn in Hin.
  apply bool_decide_eq_true in Hin.
  unfold next_options, bind, spread, lift_result. cbn.
  destruct (store w !! monacoOptions (state w)) as [o|] eqn:Ho;
    [|apply lookup_ge_None in Ho; lia].
  cbn. unfold spec_getAtPath in *.
  rewrite (get_segments_copy _ _ _ _ _ (js_split_nonempty _ _) Hcl Ho).
  destruct (get_segments _ _ _ _) as [v|e]; [|eauto].
  unfold togglable in Hres.
  destruct (spec_toggleMonaco next v) as [v'|e]; [discriminate|eauto].
Qed.

(** C4, with the registry in place: a path that does not resolve in the
    current options makes [toggleEditorOption] return [false] after one
    [console.warn]; the state is untouched and every object of the store is
    as it was (the store only gains the copy that was being prepared). *)
Theorem toggle_unresolved_path next path w reg :
  well_formed w = true ->
  editors w = Some reg ->
  resolves next path w = false ->
  exists e,
    spec_toggle next path w
    = (Ok false,
       {| editors := editors w; state := state w;
          store := store w ++ [default ∅ (store w !! monacoOptions (state w))];
          console := console w ++ [ConsoleWarn (could_not_toggle path) e] |}).
Proof.
  intros Hwf Hreg Hres.
  destruct (next_options_unresolved next path w Hwf Hres) as [e He].
  exists e. unfold spec_toggle.
  rewrite (toggleEditorOption_some _ _ _ Hreg).
  unfold toggle_body. unfold bind at 1. rewrite He. reflexivity.
Qed.

Lemma toggle_unresolved_path_witness :
  exists e,
    spec_toggle on_off "no.such.option" two_panes
    = (Ok false,
       {| editors := editors two_panes; state := constructed;
          store := initial_store
                   ++ [default ∅ (initial_store !! defaultMonacoOptions)];
          console := [ConsoleWarn (could_not_toggle "no.such.option") e] |}).
Proof.
  apply (toggle_unresolved_path on_off "no.such.option" two_panes
           [("main", Some main_editor); ("renderer", Some renderer_editor)]);
    reflexivity.
Defined.

(** C4, the claim as written fails: without a registry the path is never
    looked at, and [false] comes back with nothing on the console. *)
Lemma toggle_unresolved_path_without_warning :
  let w' := (spec_toggle on_off "no.such.option" no_registry).2 in
  resolves on_off "no.such.option" no_registry = false
  /\ (spec_toggle on_off "no.such.option" no_registry).1 = Ok false
  /\ ~ (exists msg err, In (ConsoleWarn msg err) (console w')).
Proof.
  vm_compute. repeat split. intros (msg & err & []).
Qed.

(** C5: both panes mounted, [minimap.enabled] false and [wordWrap] 'on'.
    [toggleEditorOption("minimap.enabled")] returns [true]; the main and the
    renderer editor are each handed the new options object, number 2 of the
    store, at a time when the store is [minimap_toggled], where object 2
    reads [{ minimap: { enabled: true }, wordWrap: 'on' }]; [setState] is
    called after both, and [state.monacoOptions] is object 2 in the end. *)
Theorem toggle_minimap_two_panes next :
  spec_toggle next "minimap.enabled" two_panes
  = (Ok true,
     {| editors := editors two_panes;
        state := {| monaco := None; isMounted := false; monacoOptions := 2 |};
        store := minimap_toggled;
        console := [UpdateOptions "main" 2 minimap_toggled;
                    UpdateOptions "renderer" 2 minimap_toggled;
                    SetState 2] |}).
Proof. vm_compute. reflexivity. Qed.

(** ** loadMonaco *)

Lemma turn_step_cached p t m :
  app_monaco p = Some m ->
  app_monaco (turn_step p t) = Some m
  /\ loader_calls (turn_step p t) = loader_calls p.
Proof.
  intros Hm. destruct t as [c|c|k|k]; cbn.
  - unfold construct, loadMonaco; cbn. rewrite Hm.
    unfold loadMonaco_rest; cbn. now split.
  - now split.
  - unfold resolve. destruct (take_awaiting k (awaiting p)) as [[c rest]|].
    + unfold loadMonaco_rest; cbn. rewrite Hm. now split.
    + now split.
  - unfold reject. destruct (take_awaiting k (awaiting p)) as [[c rest]|];
      now split.
Qed.

Lemma run_turns_cached ts : forall p m,
  app_monaco p = Some m ->
  app_monaco (run_turns ts p) = Some m
  /\ loader_calls (run_turns ts p) = loader_calls p.
Proof.
  induction ts as [|t ts IH]; intros p m Hm; [now split|].
  destruct (turn_step_cached p t m Hm) as [Hm' Hcalls].
  destruct (IH (turn_step p t) m Hm') as [Hm'' Hcalls'].
  cbn. split; [exact Hm''|]. unfold run_turns in Hcalls'. congruence.
Qed.

(** C7, as the code has it: [app.monaco] is the only cache.  Once it is set
    it is never replaced and no later turn calls the loader: a component
    constructed then takes the cached engine at once.  While it is unset,
    every [loadMonaco] call calls the loader itself and waits for its own
    load. *)
Theorem loadMonaco_reuses_cached_engine p :
  (forall m, app_monaco p = Some m ->
     (forall ts, app_monaco (run_turns ts p) = Some m
                 /\ loader_calls (run_turns ts p) = loader_calls p)
     /\ (forall c, monaco <$> components (construct c p) !! c = Some (Some m)
                   /\ awaiting (construct c p) = awaiting p))
  /\ (app_monaco p = None ->
      forall c, loader_calls (construct c p) = S (loader_calls p)
                /\ awaiting (construct c p) = awaiting p ++ [(loader_calls p, c)]).
Proof.
  split.
  - intros m Hm. split.
    + intros ts. now apply run_turns_cached.
    + intros c. unfold construct, loadMonaco, loadMonaco_rest; cbn.
      rewrite Hm; cbn. rewrite !lookup_insert_eq. now split.
  - intros Hnone c. unfold construct, loadMonaco; cbn. rewrite Hnone; cbn.
    now split.
Qed.

(** One load has resolved, the component is mounted, and a second component
    is constructed, mounted, and a stale resolution arrives. *)
Lemma loadMonaco_reuses_cached_engine_witness :
  let p := run_turns [Construct 0; Resolve 0; DidMount 0] initial_process in
  app_monaco p = Some 0
  /\ (forall ts, app_monaco (run_turns ts p) = Some 0
                 /\ loader_calls (run_turns ts p) = 1)
  /\ (forall c, monaco <$> components (construct c p) !! c = Some (Some 0)
                /\ awaiting (construct c p) = []).
Proof.
  split; [reflexivity|].
  apply (proj1 (loadMonaco_reuses_cached_engine
                  (run_turns [Construct 0; Resolve 0; DidMount 0] initial_process))
           0 eq_refl).
Defined.

(** C7, the claim as written fails: two components constructed before the
    first load resolves make two loader calls, each waiting for its own
    load. *)
Lemma loadMonaco_loads_twice_in_flight :
  let p := run_turns [Construct 0; Construct 1] initial_process in
  loader_calls p = 2
  /\ awaiting p = [(0, 0); (1, 1)]
  /\ ~ (loader_calls p <= 1).
Proof. vm_compute. repeat split. lia. Qed.

(** ** The layout reaction *)

(** C8: no call is pending, the arrangement changes at [t1] and again at
    [t2], less than [delay] after [t1], and then nothing happens until [t],
    at least [delay] after [t2].  The call scheduled by the first change is
    replaced by the one of the second; nothing is written before that one
    runs, and what it writes, once, is the second arrangement. *)
Theorem two_changes_one_write delay s t1 a1 t2 a2 t :
  pending s = None ->
  now s <= t1 -> t1 <= t2 -> t2 < t1 + delay -> t2 + delay <= t ->
  let s1 := occur delay s (Change t1 a1) in
  let s2 := occur delay s1 (Change t2 a2) in
  let s3 := run_layout delay [Change t1 a1; Change t2 a2; Idle t] s in
  pending s1 = Some (t1 + delay)
  /\ pending s2 = Some (t2 + delay)
  /\ written s2 = written s
  /\ written s3 = written s ++ [a2]
  /\ pending s3 = None.
Proof.
  intros Hp H0 H1 H2 H3. cbn zeta.
  unfold run_layout; cbn [fold_left occur].
  unfold onChange, updateEditorLayout, elapse; cbn. rewrite Hp; cbn.
  rewrite (Nat.max_r _ _ H0).
  destruct (Nat.leb_spec (t1 + delay) (Nat.max t1 t2)) as [Hle|Hlt]; [lia|]; cbn.
  rewrite (Nat.max_r _ _ H1).
  destruct (Nat.leb_spec (t2 + delay) (Nat.max t2 t)) as [Hle|Hlt']; [|lia]; cbn.
  repeat split.
Qed.

Lemma two_changes_one_write_witness :
  written (run_layout 300
             [Change 0 (Some two_panes_side_by_side);
              Change 100 (Some three_panes); Idle 400] initial_layout)
  = [Some three_panes].
Proof.
  apply (two_changes_one_write 300 initial_layout
           0 (Some two_panes_side_by_side) 100 (Some three_panes) 400);
    [reflexivity | cbn; lia ..].
Defined.

(* ================================================================= *)
(** * Further properties of the component *)

(** ** loadMonaco: the calls and the loads *)

Lemma take_awaiting_perm k l : forall c rest,
  take_awaiting k l = Some (c, rest) -> l ≡ₚ (k, c) :: rest.
Proof.
  induction l as [|[k' c'] l IH]; intros c rest; cbn; [discriminate|].
  destruct (decide (k' = k)) as [->|Hne].
  - now intros [= -> ->].
  - destruct (take_awaiting k l) as [[c1 rest1]|]; cbn; [|discriminate].
    intros [= <- <-]. rewrite (IH c1 rest1 eq_refl). apply Permutation_swap.
Qed.

Lemma take_awaiting_fresh k c l l' :
  k ∉ l.*1 -> take_awaiting k (l ++ (k, c) :: l') = Some (c, l ++ l').
Proof.
  induction l as [|[k' c'] l IH]; cbn; intros Hk.
  - now rewrite decide_True.
  - apply not_elem_of_cons in Hk as [Hne Hk].
    rewrite decide_False by congruence. now rewrite IH.
Qed.

Lemma turn_step_consistent p t :
  loads_consistent p -> loads_consistent (turn_step p t).
Proof.
  intros (Hnd & Hlt & Hm). destruct t as [c|c|k|k]; cbn.
  - unfold construct, loadMonaco; cbn.
    destruct (app_monaco p) as [m|] eqn:Happ.
    + unfold loads_consistent, loadMonaco_rest; cbn. repeat split; auto.
    + unfold loads_consistent; cbn. rewrite fmap_app; cbn. repeat split.
      * apply NoDup_app. repeat split; [exact Hnd| |apply NoDup_singleton].
        intros x Hx ->%list_elem_of_singleton.
        rewrite Forall_forall in Hlt. specialize (Hlt _ Hx). lia.
      * apply Forall_app. split; [|repeat constructor].
        eapply Forall_impl; [exact Hlt|]. cbn. lia.
      * discriminate.
  - exact (conj Hnd (conj Hlt Hm)).
  - unfold resolve.
    destruct (take_awaiting k (awaiting p)) as [[c rest]|] eqn:Htake;
      [|exact (conj Hnd (conj Hlt Hm))].
    apply take_awaiting_perm in Htake.
    assert (Hperm : (awaiting p).*1 ≡ₚ k :: rest.*1)
      by (now rewrite Htake).
    rewrite Hperm in Hnd, Hlt.
    apply NoDup_cons in Hnd as [_ Hnd]. apply Forall_cons in Hlt as [Hk Hlt].
    unfold loads_consistent, loadMonaco_rest; cbn. repeat split; auto.
    intros m. destruct (app_monaco p) as [m'|]; intros [= <-]; auto.
  - unfold reject.
    destruct (take_awaiting k (awaiting p)) as [[c rest]|] eqn:Htake;
      [|exact (conj Hnd (conj Hlt Hm))].
    apply take_awaiting_perm in Htake.
    assert (Hperm : (awaiting p).*1 ≡ₚ k :: rest.*1)
      by (now rewrite Htake).
    rewrite Hperm in Hnd, Hlt.
    apply NoDup_cons in Hnd as [_ Hnd]. apply Forall_cons in Hlt as [Hk Hlt].
    unfold loads_consistent; cbn. repeat split; auto.
Qed.

Lemma run_turns_preserves_consistent ts : forall p,
  loads_consistent p -> loads_consistent (run_turns ts p).
Proof.
  induction ts as [|t ts IH]; intros p Hp; [exact Hp|].
  apply (IH (turn_step p t)). now apply turn_step_consistent.
Qed.

(** X1: whatever components are constructed and mounted and whatever loads
    resolve, in any order, the suspended [loadMonaco] calls wait for distinct
    loads, each of them started by a [loader()] call, and the engine in
    [app.monaco] comes from such a call too. *)
Theorem run_turns_consistent ts :
  loads_consistent (run_turns ts initial_process).
Proof.
  apply run_turns_preserves_consistent.
  unfold loads_consistent; cbn. repeat split; [constructor|constructor|discriminate].
Qed.

Lemma turn_step_accounted p t :
  (length (themed (turn_step p t)) + length (awaiting (turn_step p t))
   + length (rejected (turn_step p t))
   = length (themed p) + length (awaiting p) + length (rejected p)
     + (if is_construct t then 1 else 0))%nat
  /\ (loader_calls p <= loader_calls (turn_step p t)
      <= loader_calls p + (if is_construct t then 1 else 0))%nat.
Proof.
  destruct t as [c|c|k|k]; cbn.
  - unfold construct, loadMonaco, loadMonaco_rest; cbn.
    destruct (app_monaco p); cbn; rewrite length_app; cbn; lia.
  - lia.
  - unfold resolve.
    destruct (take_awaiting k (awaiting p)) as [[c rest]|] eqn:Htake; [|lia].
    apply take_awaiting_perm in Htake. rewrite Htake.
    unfold loadMonaco_rest; cbn. rewrite length_app; cbn. lia.
  - unfold reject.
    destruct (take_awaiting k (awaiting p)) as [[c rest]|] eqn:Htake; [|lia].
    apply take_awaiting_perm in Htake. rewrite Htake.
    cbn. rewrite length_app; cbn. lia.
Qed.

(** X2: every [loadMonaco] call is accounted for: at any time the calls
    that have reached [activateTheme], the calls still suspended on their
    load and the calls ended by a rejected load add up to the components
    constructed; a call activates the theme at most once, and a call whose
    load is rejected never does. *)
Theorem loadMonaco_calls_accounted ts : forall p,
  (length (themed (run_turns ts p)) + length (awaiting (run_turns ts p))
   + length (rejected (run_turns ts p))
   = length (themed p) + length (awaiting p) + length (rejected p)
     + constructed_in ts)%nat.
Proof.
  induction ts as [|t ts IH]; intros p; [unfold constructed_in; cbn; lia|].
  change (run_turns (t :: ts) p) with (run_turns ts (turn_step p t)).
  rewrite IH. destruct (turn_step_accounted p t) as [-> _].
  unfold constructed_in; cbn. destruct (is_construct t); cbn; lia.
Qed.

(** X3: the loader is called at most once for each constructed component,
    and neither a mount nor a resolution calls it. *)
Theorem loader_calls_bounded ts : forall p,
  (loader_calls p <= loader_calls (run_turns ts p)
   <= loader_calls p + constructed_in ts)%nat.
Proof.
  induction ts as [|t ts IH]; intros p; [unfold constructed_in; cbn; lia|].
  change (run_turns (t :: ts) p) with (run_turns ts (turn_step p t)).
  specialize (IH (turn_step p t)).
  destruct (turn_step_accounted p t) as [_ Hstep].
  unfold constructed_in in *; cbn. destruct (is_construct t); cbn in *; lia.
Qed.

(** X4: while no engine is cached, every constructed component calls the
    loader: [n] components constructed before any load resolves make [n]
    loader calls and [n] suspended [loadMonaco] calls, and leave
    [app.monaco] unset. *)
Theorem constructs_before_resolution cs : forall p,
  app_monaco p = None ->
  let p' := run_turns (Construct <$> cs) p in
  app_monaco p' = None
  /\ loader_calls p' = (loader_calls p + length cs)%nat
  /\ (awaiting p').*2 = (awaiting p).*2 ++ cs.
Proof.
  induction cs as [|c cs IH]; intros p Hp; cbn zeta.
  - cbn. rewrite app_nil_r. repeat split; auto.
  - change (run_turns (Construct <$> c :: cs) p)
      with (run_turns (Construct <$> cs) (construct c p)).
    assert (Hc : app_monaco (construct c p) = None)
      by (unfold construct, loadMonaco; cbn; now rewrite Hp).
    destruct (IH (construct c p) Hc) as (H1 & H2 & H3).
    rewrite H1, H2, H3. unfold construct, loadMonaco; cbn. rewrite Hp; cbn.
    rewrite fmap_app; cbn. rewrite <- (assoc_L (++)). repeat split; auto; lia.
Qed.

Lemma constructs_before_resolution_witness :
  let p' := run_turns (Construct <$> [7; 8; 9]) initial_process in
  app_monaco p' = None
  /\ loader_calls p' = 3
  /\ (awaiting p').*2 = [7; 8; 9].
Proof.
  apply (constructs_before_resolution [7; 8; 9] initial_process). reflexivity.
Defined.

Lemma construct_uncached c p :
  app_monaco p = None ->
  construct c p
  = {| app_monaco := None; loader_calls := S (loader_calls p);
       awaiting := awaiting p ++ [(loader_calls p, c)];
       components := <[c := constructed]> (components p);
       themed := themed p;
       rejected := rejected p |}.
Proof. intros Hp. unfold construct, loadMonaco; cbn. now rewrite Hp. Qed.

Lemma resolve_fresh k c l l' p :
  k ∉ l.*1 ->
  awaiting p = l ++ (k, c) :: l' ->
  resolve k p
  = loadMonaco_rest c k
      {| app_monaco := app_monaco p; loader_calls := loader_calls p;
         awaiting := l ++ l'; components := components p; themed := themed p;
       rejected := rejected p |}.
Proof.
  intros Hk Haw. unfold resolve. rewrite Haw.
  now rewrite (take_awaiting_fresh _ c _ _ Hk).
Qed.

Lemma loads_consistent_fresh p :
  loads_consistent p -> loader_calls p ∉ (awaiting p).*1.
Proof.
  intros (_ & Hlt & _) Hin. rewrite Forall_forall in Hlt.
  specialize (Hlt _ Hin). lia.
Qed.

Lemma resolution_out_of_order_state p c1 c2 :
  app_monaco p = None ->
  loads_consistent p ->
  run_turns [Construct c1; Construct c2; Resolve (S (loader_calls p));
             Resolve (loader_calls p)] p
  = {| app_monaco := Some (S (loader_calls p));
       loader_calls := S (S (loader_calls p));
       awaiting := awaiting p;
       components :=
         <[c1 := loaded_unmounted (loader_calls p)]>
           (<[c2 := loaded_unmounted (S (loader_calls p))]>
              (<[c2 := constructed]> (<[c1 := constructed]> (components p))));
       themed := themed p ++ [S (loader_calls p); loader_calls p];
       rejected := rejected p |}.
Proof.
  intros Hp Hcons.
  pose proof (loads_consistent_fresh p Hcons) as Hfresh.
  assert (HSn : S (loader_calls p) ∉ (awaiting p ++ [(loader_calls p, c1)]).*1).
  { rewrite fmap_app. cbn. intros [Hin|Hin]%elem_of_app.
    - destruct Hcons as (_ & Hlt & _). rewrite Forall_forall in Hlt.
      specialize (Hlt _ Hin). lia.
    - apply list_elem_of_singleton in Hin. lia. }
  unfold run_turns; cbn [fold_left turn_step].
  rewrite (construct_uncached c1 p Hp).
  rewrite construct_uncached by reflexivity.
  cbn [loader_calls awaiting components themed].
  rewrite (resolve_fresh (S (loader_calls p)) c2
             (awaiting p ++ [(loader_calls p, c1)]) [] _ HSn)
    by (cbn; now rewrite <- (assoc_L (++))).
  rewrite app_nil_r. unfold loadMonaco_rest.
  cbn [loader_calls awaiting components themed app_monaco].
  rewrite lookup_insert_eq. cbn [isMounted constructed].
  rewrite (resolve_fresh (loader_calls p) c1 (awaiting p) [] _ Hfresh)
    by reflexivity.
  rewrite app_nil_r. unfold loadMonaco_rest.
  cbn [loader_calls awaiting components themed app_monaco].
  destruct (decide (c1 = c2)) as [->|Hne].
  - rewrite lookup_insert_eq. cbn [isMounted].
    now rewrite <- (assoc_L (++)).
  - rewrite (lookup_insert_ne _ c2 c1) by congruence.
    rewrite (lookup_insert_ne _ c2 c1) by congruence.
    rewrite lookup_insert_eq. cbn [isMounted constructed].
    now rewrite <- (assoc_L (++)).
Qed.

(** X5: two components are constructed while no engine is cached, and the
    load of the second resolves before the load of the first.  [app.monaco]
    keeps the engine that arrived first; the first component, resumed later,
    takes the engine of its own load and leaves [app.monaco] alone; both
    calls end with [activateTheme]. *)
Theorem resolution_out_of_order p c1 c2 :
  app_monaco p = None ->
  loads_consistent p ->
  c1 <> c2 ->
  let n := loader_calls p in
  let p' := run_turns [Construct c1; Construct c2; Resolve (S n); Resolve n] p in
  app_monaco p' = Some (S n)
  /\ monaco <$> components p' !! c1 = Some (Some n)
  /\ monaco <$> components p' !! c2 = Some (Some (S n))
  /\ awaiting p' = awaiting p
  /\ themed p' = themed p ++ [S n; n]
  /\ loader_calls p' = S (S n).
Proof.
  intros Hp Hcons Hne. cbn zeta.
  rewrite (resolution_out_of_order_state p c1 c2 Hp Hcons).
  cbn [app_monaco loader_calls awaiting components themed].
  rewrite lookup_insert_eq.
  rewrite (lookup_insert_ne _ c1 c2) by congruence.
  rewrite lookup_insert_eq. repeat split.
Qed.

Lemma resolution_out_of_order_witness :
  let p' := run_turns [Construct 0; Construct 1; Resolve 1; Resolve 0]
              initial_process in
  app_monaco p' = Some 1
  /\ monaco <$> components p' !! 0 = Some (Some 0)
  /\ monaco <$> components p' !! 1 = Some (Some 1)
  /\ awaiting p' = []
  /\ themed p' = [1; 0]
  /\ loader_calls p' = 2.
Proof.
  apply (resolution_out_of_order initial_process 0 1).
  - reflexivity.
  - unfold loads_consistent; cbn.
    repeat split; [constructor | constructor | discriminate].
  - discriminate.
Defined.

(** X6: for a component constructed while no engine is cached, it makes no
    difference whether [componentDidMount] runs before or after its load
    resolves: both orders end in the same process, with the component
    mounted, holding the engine of its load and the default options. *)
Theorem mount_and_resolution_commute p c :
  app_monaco p = None ->
  loads_consistent p ->
  let n := loader_calls p in
  run_turns [Construct c; DidMount c; Resolve n] p
  = run_turns [Construct c; Resolve n; DidMount c] p
  /\ components (run_turns [Construct c; Resolve n; DidMount c] p) !! c
     = Some {| monaco := Some n; isMounted := true;
               monacoOptions := defaultMonacoOptions |}.
Proof.
  intros Hp Hcons. cbn zeta.
  pose proof (loads_consistent_fresh p Hcons) as Hfresh.
  unfold run_turns; cbn [fold_left turn_step].
  rewrite (construct_uncached c p Hp).
  unfold componentDidMount at 1, resolve. cbn [awaiting loader_calls].
  rewrite (take_awaiting_fresh _ c _ [] Hfresh). rewrite app_nil_r.
  unfold loadMonaco_rest, componentDidMount. cbn.
  rewrite alter_insert_eq. rewrite !lookup_insert_eq. cbn.
  rewrite !insert_insert_eq. rewrite alter_insert_eq. cbn.
  rewrite lookup_insert_eq. split; reflexivity.
Qed.

Lemma mount_and_resolution_commute_witness :
  run_turns [Construct 4; DidMount 4; Resolve 0] initial_process
  = run_turns [Construct 4; Resolve 0; DidMount 4] initial_process
  /\ components (run_turns [Construct 4; Resolve 0; DidMount 4] initial_process) !! 4
     = Some {| monaco := Some 0; isMounted := true;
               monacoOptions := defaultMonacoOptions |}.
Proof.
  apply (mount_and_resolution_commute initial_process 4).
  - reflexivity.
  - unfold loads_consistent; cbn.
    repeat split; [constructor | constructor | discriminate].
Defined.

(** ** render *)

Lemma construct_cached c p m :
  app_monaco p = Some m ->
  construct c p
  = loadMonaco_rest c m
      {| app_monaco := app_monaco p; loader_calls := loader_calls p;
         awaiting := awaiting p;
         components := <[c := constructed]> (components p);
         themed := themed p; rejected := rejected p |}.
Proof. intros Hp. unfold construct, loadMonaco; cbn. now rewrite Hp. Qed.

Lemma take_awaiting_elem k c l :
  NoDup l.*1 -> (k, c) ∈ l -> exists rest, take_awaiting k l = Some (c, rest).
Proof.
  induction l as [|[k' c'] l IH]; cbn; intros Hnd Hin.
  - now apply elem_of_nil in Hin.
  - apply NoDup_cons in Hnd as [Hk' Hnd].
    destruct (decide (k' = k)) as [->|Hne].
    + apply elem_of_cons in Hin as [[= ->]|Hin]; [eauto|].
      exfalso. apply Hk'. apply list_elem_of_fmap. now exists (k, c).
    + apply elem_of_cons in Hin as [[= -> ->]|Hin]; [congruence|].
      destruct (IH Hnd Hin) as [rest ->]. cbn. eauto.
Qed.

Lemma render_engine arrangement c q :
  (engine_of c q = Some None ->
   components q !! c ≫= render arrangement = None)
  /\ (forall e, engine_of c q = Some (Some e) ->
      is_Some (components q !! c ≫= render arrangement)).
Proof.
  unfold engine_of, render.
  destruct (components q !! c) as [s|]; cbn; split; try discriminate.
  - intros [= ->]. reflexivity.
  - intros e [= ->]. eauto.
Qed.

Lemma loadMonaco_rest_other c c' engine q :
  c <> c' -> engine_of c (loadMonaco_rest c' engine q) = engine_of c q.
Proof.
  intros Hne. unfold engine_of, loadMonaco_rest; cbn.
  now rewrite lookup_insert_ne by congruence.
Qed.

Lemma loadMonaco_rest_self c engine q :
  engine_of c (loadMonaco_rest c engine q) = Some (Some engine).
Proof.
  unfold engine_of, loadMonaco_rest; cbn. rewrite lookup_insert_eq.
  destruct (components q !! c) as [s|]; [destruct (isMounted s)|]; reflexivity.
Qed.

Lemma turn_step_waits c n q t :
  waits_for c n q ->
  t <> Resolve n -> t <> Construct c ->
  waits_for c n (turn_step q t).
Proof.
  intros [Heng Hload] Hres Hcon. destruct t as [c'|c'|k|k]; cbn.
  - assert (Hne : c <> c') by congruence.
    destruct (app_monaco q) as [m|] eqn:Hm.
    + rewrite (construct_cached c' q m Hm). split.
      * rewrite loadMonaco_rest_other by exact Hne.
        unfold engine_of in *; cbn. now rewrite lookup_insert_ne by congruence.
      * exact Hload.
    + rewrite (construct_uncached c' q Hm). split.
      * unfold engine_of in *; cbn. now rewrite lookup_insert_ne by congruence.
      * cbn. intros k [Hin|Hin]%elem_of_app; [now apply Hload|].
        apply list_elem_of_singleton in Hin. congruence.
  - split; [|exact Hload]. unfold engine_of in *; cbn.
    rewrite lookup_alter. case_decide; [subst|exact Heng].
    destruct (components q !! c) as [s|]; cbn in *; congruence.
  - assert (Hne : k <> n) by congruence. unfold resolve.
    destruct (take_awaiting k (awaiting q)) as [[c' rest]|] eqn:Htake;
      [|now split].
    apply take_awaiting_perm in Htake.
    assert (Hc : c <> c').
    { intros <-. apply Hne, Hload. rewrite Htake. now left. }
    split.
    + rewrite loadMonaco_rest_other by exact Hc. exact Heng.
    + cbn. intros k' Hin. apply Hload. rewrite Htake. now right.
  - unfold reject.
    destruct (take_awaiting k (awaiting q)) as [[c' rest]|] eqn:Htake;
      [|now split].
    apply take_awaiting_perm in Htake. split; [exact Heng|].
    cbn. intros k' Hin. apply Hload. rewrite Htake. now right.
Qed.

Lemma turn_step_still_awaiting c n q t :
  (n, c) ∈ awaiting q ->
  t <> Resolve n -> t <> RejectLoad n ->
  (n, c) ∈ awaiting (turn_step q t).
Proof.
  intros Hin Hres Hrej. destruct t as [c'|c'|k|k]; cbn.
  - destruct (app_monaco q) as [m|] eqn:Hm.
    + rewrite (construct_cached c' q m Hm). exact Hin.
    + rewrite (construct_uncached c' q Hm). cbn. apply elem_of_app. now left.
  - exact Hin.
  - unfold resolve.
    destruct (take_awaiting k (awaiting q)) as [[c' rest]|] eqn:Htake;
      [|exact Hin].
    apply take_awaiting_perm in Htake. cbn. rewrite Htake in Hin.
    apply elem_of_cons in Hin as [[= <- <-]|Hin]; [congruence|exact Hin].
  - unfold reject.
    destruct (take_awaiting k (awaiting q)) as [[c' rest]|] eqn:Htake;
      [|exact Hin].
    apply take_awaiting_perm in Htake. cbn. rewrite Htake in Hin.
    apply elem_of_cons in Hin as [[= <- <-]|Hin]; [congruence|exact Hin].
Qed.

Lemma turn_step_has_engine c q t :
  has_engine c q -> has_engine c (turn_step q t).
Proof.
  intros [[m Hm] [e He]]. destruct t as [c'|c'|k|k]; cbn.
  - rewrite (construct_cached c' q m Hm). split.
    + unfold loadMonaco_rest; cbn. rewrite Hm. eauto.
    + destruct (decide (c = c')) as [<-|Hne].
      * rewrite loadMonaco_rest_self. eauto.
      * rewrite loadMonaco_rest_other by exact Hne.
        unfold engine_of in *; cbn [components].
        rewrite lookup_insert_ne by congruence. eauto.
  - split; [cbn; eauto|].
    unfold engine_of, componentDidMount in *; cbn [components].
    rewrite lookup_alter. case_decide; [subst|eauto].
    destruct (components q !! c) as [s|]; cbn in *; [|discriminate].
    injection He as He. exists e. now rewrite He.
  - unfold resolve.
    destruct (take_awaiting k (awaiting q)) as [[c' rest]|];
      [|split; eauto]. split.
    + unfold loadMonaco_rest; cbn. rewrite Hm. eauto.
    + destruct (decide (c = c')) as [<-|Hne].
      * rewrite loadMonaco_rest_self. eauto.
      * rewrite loadMonaco_rest_other by exact Hne. eauto.
  - unfold reject.
    destruct (take_awaiting k (awaiting q)) as [[c' rest]|]; split; eauto.
Qed.

Lemma run_turns_has_engine c ts : forall q,
  has_engine c q -> has_engine c (run_turns ts q).
Proof.
  induction ts as [|t ts IH]; intros q Hq; [exact Hq|].
  apply (IH (turn_step q t)). now apply turn_step_has_engine.
Qed.

Lemma run_turns_waits c n ts : forall q,
  waits_for c n q ->
  Resolve n ∉ ts -> Construct c ∉ ts ->
  waits_for c n (run_turns ts q).
Proof.
  induction ts as [|t ts IH]; intros q Hq Hres Hcon; [exact Hq|].
  apply not_elem_of_cons in Hres as [Hres1 Hres].
  apply not_elem_of_cons in Hcon as [Hcon1 Hcon].
  apply (IH (turn_step q t)); auto. apply turn_step_waits; auto.
Qed.

Lemma run_turns_still_awaiting c n ts : forall q,
  (n, c) ∈ awaiting q ->
  Resolve n ∉ ts -> RejectLoad n ∉ ts ->
  (n, c) ∈ awaiting (run_turns ts q).
Proof.
  induction ts as [|t ts IH]; intros q Hq Hres Hrej; [exact Hq|].
  apply not_elem_of_cons in Hres as [Hres1 Hres].
  apply not_elem_of_cons in Hrej as [Hrej1 Hrej].
  apply (IH (turn_step q t)); auto. apply turn_step_still_awaiting; auto.
Qed.

(** X7: a component constructed while no engine is cached renders [null]
    for as long as its load has not resolved, whatever else happens (other
    components, mounts, other loads resolving or failing, its own load
    failing); once its load resolves it renders the mosaic, and goes on
    doing so whatever happens afterwards.  A component constructed once
    [app.monaco] is set renders the mosaic from its construction on. *)
Theorem render_waits_for_engine p c arrangement :
  (app_monaco p = None ->
   loads_consistent p ->
   c ∉ (awaiting p).*2 ->
   let n := loader_calls p in
   (forall ts,
      Resolve n ∉ ts -> Construct c ∉ ts ->
      components (run_turns ts (construct c p)) !! c ≫= render arrangement
      = None)
   /\ (forall ts ts',
         Resolve n ∉ ts -> RejectLoad n ∉ ts -> Construct c ∉ ts ->
         is_Some (components (run_turns (ts ++ Resolve n :: ts') (construct c p))
                    !! c ≫= render arrangement)))
  /\ (forall m ts,
        app_monaco p = Some m ->
        is_Some (components (run_turns ts (construct c p)) !! c
                 ≫= render arrangement)).
Proof.
  split.
  - intros Hp Hcons Hc. cbn zeta.
    assert (Hwait : waits_for c (loader_calls p) (construct c p)).
    { rewrite (construct_uncached c p Hp). split.
      - unfold engine_of; cbn. now rewrite lookup_insert_eq.
      - cbn. intros k [Hin|Hin]%elem_of_app.
        + exfalso. apply Hc. apply list_elem_of_fmap. now exists (k, c).
        + apply list_elem_of_singleton in Hin. congruence. }
    assert (Hin : (loader_calls p, c) ∈ awaiting (construct c p)).
    { rewrite (construct_uncached c p Hp). cbn. apply elem_of_app. right.
      now apply list_elem_of_singleton. }
    split.
    + intros ts Hres Hcon.
      apply (proj1 (render_engine arrangement c _)).
      exact (proj1 (run_turns_waits c _ ts _ Hwait Hres Hcon)).
    + intros ts ts' Hres Hrej Hcon.
      unfold run_turns. rewrite fold_left_app. cbn [fold_left turn_step].
      fold (run_turns ts (construct c p)).
      set (q := run_turns ts (construct c p)).
      fold (run_turns ts' (resolve (loader_calls p) q)).
      assert (Hq : loads_consistent q).
      { apply run_turns_preserves_consistent.
        now apply (turn_step_consistent p (Construct c)). }
      pose proof (run_turns_still_awaiting c _ ts _ Hin Hres Hrej) as Hinq.
      fold q in Hinq.
      destruct (take_awaiting_elem _ _ _ (proj1 Hq) Hinq) as [rest Hrest].
      assert (Hres' : has_engine c (resolve (loader_calls p) q)).
      { unfold resolve. rewrite Hrest. split.
        - unfold loadMonaco_rest; cbn. destruct (app_monaco q); eauto.
        - rewrite loadMonaco_rest_self. eauto. }
      destruct (run_turns_has_engine c ts' _ Hres') as [_ [e He]].
      exact (proj2 (render_engine arrangement c _) e He).
  - intros m ts Hm.
    assert (Hc : has_engine c (construct c p)).
    { rewrite (construct_cached c p m Hm). split.
      - unfold loadMonaco_rest; cbn. rewrite Hm. eauto.
      - rewrite loadMonaco_rest_self. eauto. }
    destruct (run_turns_has_engine c ts _ Hc) as [_ [e He]].
    exact (proj2 (render_engine arrangement c _) e He).
Qed.

Lemma render_waits_for_engine_witness :
  (forall ts,
     Resolve 0 ∉ ts -> Construct 0 ∉ ts ->
     components (run_turns ts (construct 0 initial_process)) !! 0
       ≫= render None = None)
  /\ (forall ts ts',
        Resolve 0 ∉ ts -> RejectLoad 0 ∉ ts -> Construct 0 ∉ ts ->
        is_Some (components (run_turns (ts ++ Resolve 0 :: ts')
                               (construct 0 initial_process)) !! 0
                 ≫= render None)).
Proof.
  apply (proj1 (render_waits_for_engine initial_process 0 None)).
  - reflexivity.
  - unfold loads_consistent; cbn.
    repeat split; [constructor | constructor | discriminate].
  - cbn. apply not_elem_of_nil.
Defined.

(** ** toggleEditorOption and executeCommand, further *)

Lemma push_all_updates l h eds :
  Forall (fun ev => exists ed, ev = UpdateOptions ed l h) (push_all l h eds).1.
Proof.
  induction eds as [|ed eds IH]; cbn; [constructor|].
  destruct (updateOptions_throws ed).
  - cbn. repeat constructor. eauto.
  - destruct (push_all l h eds) as [evs r]; cbn in *. constructor; eauto.
Qed.

Lemma push_all_accepts l h eds :
  (push_all l h eds).2 = None <-> Forall accepts eds.
Proof.
  induction eds as [|ed eds IH]; cbn; [split; [constructor|reflexivity]|].
  destruct (updateOptions_throws ed) as [e|] eqn:Hed; cbn.
  - split; [discriminate|]. intros [Hacc _]%Forall_cons.
    unfold accepts in Hacc. congruence.
  - destruct (push_all l h eds) as [evs r]; cbn in *. rewrite IH.
    split; [intros Hall; constructor; assumption|].
    now intros [_ Hall]%Forall_cons.
Qed.

Section ToggleFurther.
Context `{!JsPath, !ToggleMonaco}.

Lemma next_options_loc path w l w1 :
  next_options path w = (Ok l, w1) -> l = length (store w).
Proof.
  unfold next_options, bind, spread, lift_result, ret. cbn.
  destruct (getAtPath _ _ _) as [cur|e]; cbn; [|discriminate].
  destruct (toggleMonaco cur) as [v|e]; cbn; [|discriminate].
  destruct (setAtPath _ _ _ _) as [[[]|e] h]; cbn; [|discriminate].
  now intros [= <- _].
Qed.

(** The outcomes of [toggleEditorOption] when the registry is there. *)
Lemma toggleEditorOption_cases path w reg :
  editors w = Some reg ->
  toggleEditorOption path w
  = match next_options path w with
    | (Throw e, w1) =>
        (Ok false,
         {| editors := editors w; state := state w; store := store w1;
            console := console w ++ [ConsoleWarn (could_not_toggle path) e] |})
    | (Ok l, w1) =>
        match push_all l (store w1)
                (omap (fun key => registry_get key reg) (Object_keys reg)) with
        | (evs, None) =>
            (Ok true,
             {| editors := editors w; state := {| monaco := monaco (state w); isMounted := isMounted (state w);
                      monacoOptions := l |};
                store := store w1; console := console w ++ evs ++ [SetState l] |})
        | (evs, Some e) =>
            (Ok false,
             {| editors := editors w; state := state w; store := store w1;
                console := console w ++ evs
                           ++ [ConsoleWarn (could_not_toggle path) e] |})
        end
    end.
Proof.
  intros Hreg. rewrite (toggleEditorOption_some _ _ _ Hreg).
  unfold toggle_body. unfold bind at 1.
  destruct (next_options path w) as [[l|e1] w1] eqn:Hnext;
    destruct (next_options_frame _ _ _ _ Hnext) as (He & Hs & Hc).
  - unfold bind at 1. rewrite He, Hreg. cbn [from_option id].
    unfold bind at 1.
    rewrite (forEach_push_to _ w1 reg l) by congruence. cbn zeta.
    destruct (push_all l _ _) as [evs [e|]]; cbn.
    + unfold emit, emit_all; cbn. rewrite He, Hs, Hc, Hreg.
      now rewrite <- (assoc_L (++)).
    + unfold setState_monacoOptions, emit_all, emit, with_state, bind, ret.
      cbn. rewrite He, Hs, Hc, Hreg. now rewrite <- (assoc_L (++)).
  - unfold emit; cbn. now rewrite He, Hs, Hc.
Qed.

(** X10: when computing the new options throws (in [getAtPath],
    [toggleMonaco] or [setAtPath]), [toggleEditorOption] calls no editor: it
    warns once, with the exception that was thrown, returns [false] and
    leaves the state as it was. *)
Theorem toggle_helper_failure path w reg e w1 :
  editors w = Some reg ->
  next_options path w = (Throw e, w1) ->
  toggleEditorOption path w
  = (Ok false,
     {| editors := editors w; state := state w; store := store w1;
        console := console w ++ [ConsoleWarn (could_not_toggle path) e] |}).
Proof.
  intros Hreg Hnext. rewrite (toggleEditorOption_cases path w reg Hreg).
  now rewrite Hnext.
Qed.

(** X11: when [toggleEditorOption] returns [true], the last thing it did
    was to call [setState] with the options object it allocated in this
    call, a location the store did not have before and so never the object
    that was current; every call it made to an editor handed over that same
    object, in the store as [setAtPath] left it, and came before
    [setState]. *)
Theorem toggle_pushes_then_sets_new_object path w w' :
  toggleEditorOption path w = (Ok true, w') ->
  store w !! length (store w) = None
  /\ (in_store (store w) (VRef (monacoOptions (state w))) = true ->
      length (store w) <> monacoOptions (state w))
  /\ exists evs,
       console w' = console w ++ evs ++ [SetState (length (store w))]
       /\ Forall (fun ev =>
                    exists ed, ev = UpdateOptions ed (length (store w)) (store w'))
            evs.
Proof.
  intros Htoggle. split; [now apply lookup_ge_None_2|].
  split.
  { cbn. intros Hin%bool_decide_eq_true. lia. }
  revert Htoggle. destruct (editors w) as [reg|] eqn:Hreg.
  - rewrite (toggleEditorOption_cases path w reg Hreg).
    destruct (next_options path w) as [[l|e1] w1] eqn:Hnext; [|discriminate].
    apply next_options_loc in Hnext as ->.
    pose proof (push_all_updates (length (store w)) (store w1)
                  (omap (fun key => registry_get key reg) (Object_keys reg))) as Hup.
    destruct (push_all _ _ _) as [evs [e|]]; [discriminate|].
    intros [= <-]. cbn. eauto.
  - unfold toggleEditorOption. rewrite Hreg. discriminate.
Qed.

(** X12: with the registry in place, [toggleEditorOption] returns [true]
    exactly when the new options could be computed and no mounted editor
    throws on [updateOptions]. *)
Theorem toggle_succeeds_iff path w reg :
  editors w = Some reg ->
  NoDup (Object_keys reg) ->
  (toggleEditorOption path w).1 = Ok true
  <-> (exists l w1, next_options path w = (Ok l, w1))
      /\ Forall accepts (mounted reg).
Proof.
  intros Hreg Hnd. rewrite (toggleEditorOption_cases path w reg Hreg).
  rewrite (registry_get_keys reg Hnd).
  destruct (next_options path w) as [[l|e1] w1]; cbn.
  - rewrite <- (push_all_accepts l (store w1) (mounted reg)).
    destruct (push_all l (store w1) (mounted reg)) as [evs [e|]]; cbn.
    + split; [discriminate|]. now intros [_ ?].
    + split; [eauto|reflexivity].
  - split; [discriminate|]. now intros [(l & w2 & ?) _].
Qed.

End ToggleFurther.

Lemma toggle_helper_failure_witness :
  spec_toggle on_off "wordWrap.column" two_panes
  = (Ok false,
     {| editors := editors two_panes; state := constructed;
        store := initial_store
                 ++ [ {[ "minimap" := VRef 0; "wordWrap" := VStr "on" ]} ];
        console := [ConsoleWarn "Editors: Could not toggle property wordWrap.column"
                      (unresolved "wordWrap.column")] |}).
Proof.
  apply (@toggle_helper_failure SpecJsPath (SpecToggleMonaco on_off)
           "wordWrap.column" two_panes
           [("main", Some main_editor); ("renderer", Some renderer_editor)]
           (unresolved "wordWrap.column")
           (with_store
              (initial_store
               ++ [ {[ "minimap" := VRef 0; "wordWrap" := VStr "on" ]} ])
              two_panes)).
  - reflexivity.
  - vm_compute. reflexivity.
Defined.

Lemma toggle_pushes_then_sets_new_object_witness :
  store two_panes !! length (store two_panes) = None
  /\ (in_store (store two_panes) (VRef (monacoOptions (state two_panes))) = true ->
      length (store two_panes) <> monacoOptions (state two_panes))
  /\ exists evs,
       console (spec_toggle on_off "minimap.enabled" two_panes).2
       = console two_panes ++ evs ++ [SetState (length (store two_panes))]
       /\ Forall (fun ev =>
                    exists ed,
                      ev = UpdateOptions ed (length (store two_panes))
                             (store (spec_toggle on_off "minimap.enabled"
                                       two_panes).2))
            evs.
Proof.
  apply (@toggle_pushes_then_sets_new_object SpecJsPath (SpecToggleMonaco on_off)
           "minimap.enabled" two_panes
           (spec_toggle on_off "minimap.enabled" two_panes).2).
  vm_compute. reflexivity.
Defined.

Lemma toggle_succeeds_iff_witness :
  (spec_toggle on_off "wordWrap" main_unready).1 = Ok true
  <-> (exists l w1,
         @next_options SpecJsPath (SpecToggleMonaco on_off) "wordWrap" main_unready
         = (Ok l, w1))
      /\ Forall accepts (mounted [("main", Some unready_main);
                                  ("renderer", Some renderer_editor)]).
Proof.
  apply (@toggle_succeeds_iff SpecJsPath (SpecToggleMonaco on_off)
           "wordWrap" main_unready
           [("main", Some unready_main); ("renderer", Some renderer_editor)]).
  - reflexivity.
  - refine (bool_decide_unpack _ _). vm_compute. exact I.
Defined.

Section ExecuteFurther.
Context `{!FocusedEditor}.

Lemma executeCommand_frame commandId w :
  editors (executeCommand commandId w).2 = editors w
  /\ state (executeCommand commandId w).2 = state w
  /\ store (executeCommand commandId w).2 = store w.
Proof.
  unfold executeCommand, bind.
  destruct (getFocusedEditor (editors w)) as [[ed|]|e]; cbn; auto.
  destruct (getAction ed commandId) as [c|]; cbn; auto.
  destruct (isSupported c); cbn; auto.
Qed.

(** X14: [executeCommand] runs nothing but the action that the focused
    editor has for [commandId], and only if that action is supported: a run
    that shows up in the trace is that one, it is there once, after the log
    line, and nothing else was added. *)
Theorem executeCommand_runs_nothing_else commandId w r w' :
  executeCommand commandId w = (r, w') ->
  exists evs,
    console w' = console w ++ evs
    /\ forall ed' c',
         In (CommandRun ed' c') evs ->
         exists ed c,
           getFocusedEditor (editors w) = Ok (Some ed)
           /\ getAction ed commandId = Some c
           /\ isSupported c = true
           /\ ed' = ed_id ed /\ c' = cmd_id c
           /\ evs = [ConsoleLog (trying_to_run (cmd_id c) (isSupported_text c));
                     CommandRun (ed_id ed) (cmd_id c)].
Proof.
  unfold executeCommand, bind.
  destruct (getFocusedEditor (editors w)) as [[ed|]|e] eqn:Hf; cbn.
  - destruct (getAction ed commandId) as [c|] eqn:Ha; cbn.
    + destruct (isSupported c) eqn:Hs; cbn; intros [= <- <-]; cbn.
      * exists [ConsoleLog (trying_to_run (cmd_id c) (isSupported_text c));
                CommandRun (ed_id ed) (cmd_id c)].
        split; [now rewrite <- (assoc_L (++))|].
        intros ed' c' [Hin|[Hin|[]]]; [discriminate|].
        injection Hin as <- <-. exists ed, c. repeat split; auto.
      * exists [ConsoleLog (trying_to_run (cmd_id c) (isSupported_text c))].
        split; [reflexivity|]. intros ed' c' [Hin|[]]. discriminate.
    + intros [= <- <-]. exists []. split; [now rewrite app_nil_r|].
      intros ed' c' [].
  - intros [= <- <-]. exists []. split; [now rewrite app_nil_r|].
    intros ed' c' [].
  - intros [= <- <-]. exists []. split; [now rewrite app_nil_r|].
    intros ed' c' [].
Qed.

End ExecuteFurther.

Lemma executeCommand_runs_nothing_else_witness :
  exists evs,
    console (@executeCommand SpecFocusedEditor "undo" busy_renderer).2
    = console busy_renderer ++ evs
    /\ forall ed' c',
         In (CommandRun ed' c') evs ->
         exists ed c,
           @getFocusedEditor SpecFocusedEditor (editors busy_renderer)
           = Ok (Some ed)
           /\ getAction ed "undo" = Some c
           /\ isSupported c = true
           /\ ed' = ed_id ed /\ c' = cmd_id c
           /\ evs = [ConsoleLog (trying_to_run (cmd_id c) (isSupported_text c));
                     CommandRun (ed_id ed) (cmd_id c)].
Proof.
  apply (@executeCommand_runs_nothing_else SpecFocusedEditor "undo"
           busy_renderer (Ok tt)
           (@executeCommand SpecFocusedEditor "undo" busy_renderer).2).
  reflexivity.
Defined.

(** ** The listeners *)

Section Listeners.
Context `{!FocusedEditor, !JsPath, !ToggleMonaco}.

(** X16: a [MONACO_TOGGLE_OPTION] message never raises an exception in its
    listener, whatever its payload and whatever was delivered before it. *)
Theorem toggle_message_never_raises ms : forall w i cmd,
  ms !! i = Some (MONACO_TOGGLE_OPTION cmd) ->
  (deliver ms w).1 !! i = Some (Ok tt).
Proof.
  induction ms as [|m ms IH]; intros w i cmd Hi; [discriminate|].
  cbn [deliver].
  destruct (listener m w) as [r w1] eqn:Hm.
  specialize (IH w1). destruct (deliver ms w1) as [rs w2]; cbn in *.
  destruct i as [|i]; cbn in *.
  - injection Hi as ->. cbn in Hm. unfold bind in Hm.
    destruct (toggle_result_ok cmd w) as (b & w' & Hb).
    rewrite Hb in Hm. cbn in Hm. now injection Hm as <- _.
  - eapply IH; eauto.
Qed.

(** X17: [MONACO_EXECUTE_COMMAND] messages never change the component's
    state, the options in the store or the registry, however many are
    delivered and whether or not their listeners throw. *)
Theorem execute_messages_keep_state ms : forall w,
  Forall (fun m => exists cmd, m = MONACO_EXECUTE_COMMAND cmd) ms ->
  editors (deliver ms w).2 = editors w
  /\ state (deliver ms w).2 = state w
  /\ store (deliver ms w).2 = store w.
Proof.
  induction ms as [|m ms IH]; intros w Hall; [now cbn|].
  apply Forall_cons in Hall as [[cmd ->] Hall].
  cbn [deliver listener].
  pose proof (executeCommand_frame cmd w) as (He & Hs & Hh).
  destruct (executeCommand cmd w) as [r w1]; cbn in *.
  specialize (IH w1 Hall). destruct (deliver ms w1) as [rs w2]; cbn in *.
  destruct IH as (He' & Hs' & Hh'). repeat split; congruence.
Qed.

End Listeners.

Lemma toggle_message_never_raises_witness :
  (@deliver SpecFocusedEditor SpecJsPath (SpecToggleMonaco on_off)
     [MONACO_EXECUTE_COMMAND "format"; MONACO_TOGGLE_OPTION "no.such.option"]
     busy_renderer).1 !! 1
  = Some (Ok tt).
Proof.
  apply (@toggle_message_never_raises SpecFocusedEditor SpecJsPath
           (SpecToggleMonaco on_off)
           [MONACO_EXECUTE_COMMAND "format"; MONACO_TOGGLE_OPTION "no.such.option"]
           busy_renderer 1 "no.such.option").
  reflexivity.
Defined.

Lemma execute_messages_keep_state_witness :
  let w' := (@deliver SpecFocusedEditor SpecJsPath (SpecToggleMonaco on_off)
               [MONACO_EXECUTE_COMMAND "format"; MONACO_EXECUTE_COMMAND "undo"]
               busy_renderer).2 in
  editors w' = editors busy_renderer
  /\ state w' = state busy_renderer
  /\ store w' = store busy_renderer.
Proof.
  apply (@execute_messages_keep_state SpecFocusedEditor SpecJsPath
           (SpecToggleMonaco on_off)
           [MONACO_EXECUTE_COMMAND "format"; MONACO_EXECUTE_COMMAND "undo"]
           busy_renderer).
  repeat constructor; eauto.
Defined.

(** ** The new options and the previous ones, with the modelled helpers *)

Lemma set_segments_cons err s s2 segs2 l x (h : heap) :
  set_segments err (s :: s2 :: segs2) l x h
  = match h !! l with
    | Some o =>
        match o !! s with
        | Some (VRef l') =>
            match h !! l' with
            | Some o' =>
                set_segments err (s2 :: segs2) (length h) x
                  (<[l := <[s := VRef (length h)]> o]> (h ++ [o']))
            | None => (Throw err, h)
            end
        | _ => (Throw err, h)
        end
    | None => (Throw err, h)
    end.
Proof. reflexivity. Qed.

Lemma set_segments_frame err segs : forall (l : loc) x (h : heap) r h',
  set_segments err segs l x h = (r, h') ->
  forall j : loc, (j < length h)%nat -> j <> l -> h' !! j = h !! j.
Proof.
  induction segs as [|s segs IH]; intros l x h r h' Hset j Hj Hne.
  - cbn in Hset. now injection Hset as _ <-.
  - destruct segs as [|s2 segs2].
    + cbn in Hset. destruct (h !! l) as [o|]; injection Hset as _ <-;
        [|reflexivity].
      now rewrite list_lookup_insert_ne by congruence.
    + rewrite set_segments_cons in Hset.
      destruct (h !! l) as [o|]; [|now injection Hset as _ <-].
      destruct (o !! s) as [[| | | |l']|]; try (now injection Hset as _ <-).
      destruct (h !! l') as [o'|]; [|now injection Hset as _ <-].
      rewrite (IH _ _ _ _ _ Hset j).
      * rewrite list_lookup_insert_ne by congruence. now rewrite lookup_app_l.
      * rewrite length_insert, length_app. lia.
      * lia.
Qed.

Lemma get_segments_agree err q : forall (h0 h : heap) v,
  closed h0 = true ->
  (forall j : loc, (j < length h0)%nat -> h !! j = h0 !! j) ->
  in_store h0 v = true ->
  get_segments err q v h = get_segments err q v h0.
Proof.
  induction q as [|t q IH]; intros h0 h v Hcl Hag Hv; [reflexivity|].
  cbn. assert (Hp : property h v t = property h0 v t).
  { destruct v as [| | | |l]; try reflexivity. cbn in *.
    apply bool_decide_eq_true in Hv. now rewrite Hag. }
  rewrite Hp. destruct (property h0 v t) as [v'|] eqn:Hv'; [|reflexivity].
  apply IH; auto. eapply property_closed; eauto.
Qed.

Lemma get_segments_primitive err q v (h : heap) :
  is_primitive v = true -> q <> [] -> get_segments err q v h = Throw err.
Proof.
  destruct q as [|t q]; [congruence|]. intros Hv _.
  now destruct v.
Qed.

(** Reading the path that was set gives the value that was set. *)
Lemma set_segments_get err err' segs : forall (l : loc) x (h h' : heap),
  set_segments err segs l x h = (Ok tt, h') ->
  get_segments err' segs (VRef l) h' = Ok x.
Proof.
  induction segs as [|s segs IH]; intros l x h h' Hset; [discriminate|].
  destruct segs as [|s2 segs2].
  - cbn in Hset. destruct (h !! l) as [o|] eqn:Hl; [|discriminate].
    injection Hset as <-. cbn.
    rewrite list_lookup_insert_eq by (eapply lookup_lt_Some; eauto).
    cbn. now rewrite lookup_insert_eq.
  - rewrite set_segments_cons in Hset.
    destruct (h !! l) as [o|] eqn:Hl; [|discriminate].
    destruct (o !! s) as [[| | | |l']|]; try discriminate.
    destruct (h !! l') as [o'|]; [|discriminate].
    pose proof (lookup_lt_Some _ _ _ Hl) as Hlt.
    cbn [get_segments property].
    rewrite (set_segments_frame _ _ _ _ _ _ _ Hset l)
      by (rewrite ?length_insert, ?length_app; cbn; lia).
    rewrite list_lookup_insert_eq by (rewrite length_app; lia).
    cbn. rewrite lookup_insert_eq.
    exact (IH _ _ _ _ Hset).
Qed.

(** Reading any other path in the object that was written to gives what the
    path gave in the object it was copied from. *)
Lemma set_segments_other err err0 segs :
  forall (l lo : loc) x (h h0 h' : heap) cur,
  closed h0 = true ->
  (forall j : loc, (j < length h0)%nat -> h !! j = h0 !! j) ->
  (length h0 <= l)%nat ->
  (exists o, h !! l = Some o /\ h0 !! lo = Some o) ->
  get_segments err0 segs (VRef lo) h0 = Ok cur ->
  is_primitive cur = true ->
  is_primitive x = true ->
  set_segments err segs l x h = (Ok tt, h') ->
  forall q errq,
    ~ (exists k, segs = q ++ k) ->
    get_segments errq q (VRef l) h' = get_segments errq q (VRef lo) h0.
Proof.
  induction segs as [|s segs IH];
    intros l lo x h h0 h' cur Hcl Hag Hge (o & Hl & Hlo) Hget Hcur Hx Hset q errq Hq;
    [discriminate|].
  pose proof (lookup_lt_Some _ _ _ Hl) as Hlt.
  destruct q as [|t q']; [exfalso; apply Hq; now eexists|].
  cbn [get_segments property] in Hget. rewrite Hlo in Hget. cbn in Hget.
  destruct (o !! s) as [vs|] eqn:Hos; [|discriminate].
  destruct segs as [|s2 segs2].
  - cbn in Hget. injection Hget as ->.
    cbn in Hset. rewrite Hl in Hset. injection Hset as <-.
    cbn [get_segments property]. rewrite list_lookup_insert_eq by exact Hlt.
    rewrite Hlo. cbn.
    destruct (decide (t = s)) as [->|Hts].
    + rewrite lookup_insert_eq, Hos.
      assert (Hq' : q' <> []).
      { intros ->. apply Hq. now exists []. }
      now rewrite !get_segments_primitive.
    + rewrite lookup_insert_ne by congruence.
      destruct (o !! t) as [v'|] eqn:Hot; [|reflexivity].
      apply get_segments_agree; auto.
      * intros j Hj. rewrite list_lookup_insert_ne by lia. now apply Hag.
      * eapply closed_lookup; eauto.
  - rewrite set_segments_cons in Hset. rewrite Hl, Hos in Hset.
    destruct vs as [| | | |l']; try discriminate.
    assert (Hl'in : in_store h0 (VRef l') = true)
      by (eapply closed_lookup; eauto).
    cbn in Hl'in. apply bool_decide_eq_true in Hl'in.
    destruct (h !! l') as [o'|] eqn:Hl'; [|discriminate].
    assert (Hlen : (length h0 <= length h)%nat).
    { destruct (decide (length h0 <= length h)%nat) as [|Hn]; [assumption|].
      exfalso. assert (Hj : (length h < length h0)%nat) by lia.
      destruct (lookup_lt_is_Some_2 h0 (length h) Hj) as [oo Hoo].
      pose proof (Hag _ Hj) as Hbad. unfold loc in Hbad. rewrite Hoo in Hbad.
      apply lookup_lt_Some in Hbad. lia. }
    assert (Hag2 : forall j : loc, (j < length h0)%nat ->
              (<[l := <[s := VRef (length h)]> o]> (h ++ [o'])) !! j = h0 !! j).
    { intros j Hj. rewrite list_lookup_insert_ne by lia.
      rewrite lookup_app_l by lia. now apply Hag. }
    assert (Hag' : forall j : loc, (j < length h0)%nat -> h' !! j = h0 !! j).
    { intros j Hj. rewrite (set_segments_frame _ _ _ _ _ _ _ Hset j).
      - now apply Hag2.
      - rewrite length_insert, length_app. lia.
      - lia. }
    cbn [get_segments property].
    rewrite (set_segments_frame _ _ _ _ _ _ _ Hset l)
      by (rewrite ?length_insert, ?length_app; cbn; lia).
    rewrite list_lookup_insert_eq by (rewrite length_app; lia).
    rewrite Hlo. cbn.
    destruct (decide (t = s)) as [->|Hts].
    + rewrite lookup_insert_eq, Hos.
      assert (Hmirror : exists o2,
                (<[l := <[s := VRef (length h)]> o]> (h ++ [o'])) !! length h
                = Some o2 /\ h0 !! l' = Some o2).
      { exists o'. split.
        - rewrite list_lookup_insert_ne by lia.
          now apply list_lookup_middle.
        - rewrite <- (Hag l') by exact Hl'in. exact Hl'. }
      apply (IH (length h) l' x _ h0 h' cur Hcl Hag2 Hlen Hmirror Hget Hcur Hx
               Hset).
      intros [k Hk]. apply Hq. exists k. cbn. now rewrite Hk.
    + rewrite lookup_insert_ne by congruence.
      destruct (o !! t) as [v'|] eqn:Hot; [|reflexivity].
      apply get_segments_agree; auto.
      eapply closed_lookup; eauto.
Qed.

Lemma spec_toggleMonaco_primitive next cur x :
  spec_toggleMonaco next cur = Ok x ->
  is_primitive cur = true /\ is_primitive x = true.
Proof.
  destruct cur as [|b|n|str|l]; cbn; try discriminate.
  - now intros [= <-].
  - destruct (next str); [|discriminate]. now intros [= <-].
Qed.

Lemma spec_next_options_inv next path w l w1 :
  well_formed w = true ->
  @next_options SpecJsPath (SpecToggleMonaco next) path w = (Ok l, w1) ->
  exists o0 cur x,
    store w !! monacoOptions (state w) = Some o0
    /\ spec_getAtPath path (VRef (monacoOptions (state w))) (store w) = Ok cur
    /\ spec_toggleMonaco next cur = Ok x
    /\ set_segments (unresolved path) (js_split "." path) (length (store w)) x
         (store w ++ [o0])
       = (Ok tt, store w1).
Proof.
  unfold well_formed. intros Hwf. apply andb_prop in Hwf as [Hcl Hin].
  cbn in Hin. apply bool_decide_eq_true in Hin.
  unfold next_options, bind, spread, lift_result. cbn.
  destruct (store w !! monacoOptions (state w)) as [o|] eqn:Ho;
    [|apply lookup_ge_None in Ho; lia].
  cbn. unfold spec_getAtPath.
  rewrite (get_segments_copy _ _ _ _ _ (js_split_nonempty _ _) Hcl Ho).
  destruct (get_segments _ _ _ _) as [cur|e]; [|discriminate].
  destruct (spec_toggleMonaco next cur) as [x|e] eqn:Hx; [|discriminate].
  cbn. destruct (set_segments _ _ _ _ _) as [[[]|e] h'] eqn:Hset;
    cbn; [|discriminate].
  intros [= <- <-]. exists o, cur, x. cbn. auto.
Qed.

(** C2: for every well-formed world and every path, a toggle that succeeds
    publishes a new options object; no object that was in the store is
    changed by it, so whatever path a holder of the previous options reads,
    nested or not, gives what it gave before; the new object gives the
    toggled value at [path], and at every path that is not a prefix of
    [path] what the previous options give. *)
Theorem toggle_copies_on_write next path w w' :
  well_formed w = true ->
  spec_toggle next path w = (Ok true, w') ->
  let previous := monacoOptions (state w) in
  let current := monacoOptions (state w') in
  current = length (store w)
  /\ current <> previous
  /\ (forall l (o : gmap string value),
        store w !! l = Some o -> store w' !! l = Some o)
  /\ (forall q,
        spec_getAtPath q (VRef previous) (store w')
        = spec_getAtPath q (VRef previous) (store w))
  /\ (exists cur x,
        spec_getAtPath path (VRef previous) (store w) = Ok cur
        /\ spec_toggleMonaco next cur = Ok x
        /\ spec_getAtPath path (VRef current) (store w') = Ok x)
  /\ (forall q,
        ~ (exists k, js_split "." path = js_split "." q ++ k) ->
        spec_getAtPath q (VRef current) (store w')
        = spec_getAtPath q (VRef previous) (store w)).
Proof.
  intros Hwf Htoggle. cbn zeta. unfold spec_toggle in Htoggle.
  destruct (editors w) as [reg|] eqn:Hreg;
    [|unfold toggleEditorOption in Htoggle; rewrite Hreg in Htoggle;
      discriminate].
  rewrite (toggleEditorOption_cases path w reg Hreg) in Htoggle.
  destruct (next_options path w) as [[l|e1] w1] eqn:Hnext; [|discriminate].
  pose proof (next_options_loc _ _ _ _ Hnext) as ->.
  destruct (spec_next_options_inv next path w _ w1 Hwf Hnext)
    as (o0 & cur & x & Ho0 & Hcur & Hx & Hset).
  destruct (push_all _ _ _) as [evs [e|]]; [discriminate|].
  injection Htoggle as <-. cbn [state store monacoOptions].
  destruct (spec_toggleMonaco_primitive _ _ _ Hx) as [Hpc Hpx].
  pose proof Hwf as Hwf'. unfold well_formed in Hwf'.
  apply andb_prop in Hwf' as [Hcl Hin].
  pose proof Hin as Hlt. cbn in Hlt. apply bool_decide_eq_true in Hlt.
  assert (Hframe : forall j : loc, (j < length (store w))%nat ->
            store w1 !! j = store w !! j).
  { intros j Hj. rewrite (set_segments_frame _ _ _ _ _ _ _ Hset j).
    - now rewrite lookup_app_l.
    - rewrite length_app. lia.
    - lia. }
  split; [reflexivity|]. split; [lia|]. split.
  { intros j o Hj. rewrite Hframe; [exact Hj|]. eapply lookup_lt_Some; eauto. }
  split.
  { intros q. unfold spec_getAtPath. now apply get_segments_agree. }
  split.
  { exists cur, x. repeat split; auto. unfold spec_getAtPath.
    exact (set_segments_get _ _ _ _ _ _ _ Hset). }
  intros q Hq. unfold spec_getAtPath in *.
  apply (set_segments_other (unresolved path) (unresolved path)
           (js_split "." path) (length (store w)) (monacoOptions (state w)) x
           (store w ++ [o0]) (store w) (store w1) cur); auto.
  - intros j Hj. now rewrite lookup_app_l.
  - exists o0. split; [now apply list_lookup_middle|assumption].
Qed.

Lemma toggle_copies_on_write_witness :
  let w' := (spec_toggle on_off "minimap.enabled" two_panes).2 in
  monacoOptions (state w') = 2
  /\ monacoOptions (state w') <> defaultMonacoOptions
  /\ (forall l (o : gmap string value),
        store two_panes !! l = Some o -> store w' !! l = Some o)
  /\ (forall q,
        spec_getAtPath q (VRef defaultMonacoOptions) (store w')
        = spec_getAtPath q (VRef defaultMonacoOptions) (store two_panes))
  /\ (exists cur x,
        spec_getAtPath "minimap.enabled" (VRef defaultMonacoOptions)
          (store two_panes) = Ok cur
        /\ spec_toggleMonaco on_off cur = Ok x
        /\ spec_getAtPath "minimap.enabled" (VRef (monacoOptions (state w')))
             (store w') = Ok x)
  /\ (forall q,
        ~ (exists k, js_split "." "minimap.enabled" = js_split "." q ++ k) ->
        spec_getAtPath q (VRef (monacoOptions (state w'))) (store w')
        = spec_getAtPath q (VRef defaultMonacoOptions) (store two_panes)).
Proof.
  apply (toggle_copies_on_write on_off "minimap.enabled" two_panes
           (spec_toggle on_off "minimap.enabled" two_panes).2).
  - reflexivity.
  - vm_compute. reflexivity.
Defined.
